(** * FactoryPattern: the user repository, its two backends and the factory

    A shallow embedding of [app/models.py], [app/db.py], [app/repository.py]
    and [app/factory.py].

    Conventions of the embedding
    - a Python [int] is a [Z]; a Python [str] is a [string] whose characters
      are the code points 0..255 (Latin-1), on which [str.lower] is embedded
      exactly;
    - a [datetime] is an opaque clock reading (a [Z]); the value that
      [datetime.now()] yields is an argument of the operation that reads the
      clock;
    - a Python [dict] is an association list in insertion order, because
      [list_users] of the in-memory backend returns [dict.values()];
    - a raised exception is the [Raise] case of [result]; the state reached
      when it is raised is kept;
    - the [print] calls (the log lines of every operation) are left out. *)

From Stdlib Require Import ZArith Lia Ascii String.
From stdpp Require Import base option list strings gmap sorting pretty.

Open Scope Z_scope.

(** ** Python values *)

Definition datetime := Z.

Inductive exception :=
  | ValueError (msg : string)
  | IntegrityError
  | OperationalError
  | MultipleResultsFound.

Inductive result (A : Type) :=
  | Ok (a : A)
  | Raise (e : exception).
Arguments Ok {A} a.
Arguments Raise {A} e.

#[global] Instance exception_eq_dec : EqDecision exception.
Proof. solve_decision. Defined.

(** [str.lower] on the code points 0..255: the ASCII capitals and the
    Latin-1 capitals (U+00C0..U+00DE without the multiplication sign
    U+00D7) move up by 32, every other character stays. *)
Definition lower_char (c : ascii) : ascii :=
  let n := N_of_ascii c in
  if ((65 <=? n) && (n <=? 90) ||
      (192 <=? n) && (n <=? 222) && negb (n =? 215))%N
  then ascii_of_N (n + 32) else c.

Fixpoint lower (s : string) : string :=
  match s with
  | EmptyString => EmptyString
  | String c s' => String (lower_char c) (lower s')
  end.

(** Python's [d[k] = v], [d.get(k)] and [d.values()] on a dict kept in
    insertion order: an existing key keeps its place, a new key goes last. *)
Section dict.
Context {V : Type}.

Fixpoint dict_set (k : Z) (v : V) (d : list (Z * V)) : list (Z * V) :=
  match d with
  | [] => [(k, v)]
  | (k', v') :: d' =>
      if decide (k' = k) then (k', v) :: d' else (k', v') :: dict_set k v d'
  end.

Fixpoint dict_get (k : Z) (d : list (Z * V)) : option V :=
  match d with
  | [] => None
  | (k', v') :: d' => if decide (k' = k) then Some v' else dict_get k d'
  end.

Definition dict_values (d : list (Z * V)) : list V := map snd d.
End dict.

(** ** app/models.py *)

Module User.
Record t := mk { id : Z; username : string; email : string; created_at : datetime }.

#[global] Instance eq_dec : EqDecision t.
Proof. solve_decision. Defined.
End User.

(** ** app/repository.py: the in-memory backend *)

Module InMemoryUserRepository.

(** [self._users] and [self._next_id]. The lock is free between two
    calls of a sequential caller; it is a field of the interleaved model
    further down. *)
Record t := mk { _users : list (Z * User.t); _next_id : Z }.

(** [__init__] *)
Definition new : t := {| _users := []; _next_id := 1 |}.

(** [create_user]; [now] is the value of [datetime.now()]. *)
Definition create_user (now : datetime) (username email : string) (self : t)
  : User.t * t :=
  let user := User.mk (_next_id self) username email now in
  (user, {| _users := dict_set (User.id user) user (_users self);
            _next_id := _next_id self + 1 |}).

Definition get_user (user_id : Z) (self : t) : option User.t * t :=
  (dict_get user_id (_users self), self).

Definition list_users (self : t) : list User.t * t :=
  (dict_values (_users self), self).

End InMemoryUserRepository.

(** ** app/db.py: the relation [users] and the storage engine

    The engine (SQLAlchemy over SQLite) is not code of this repository. It is
    modelled by what [db.py] declares: one relation [users] per database
    file, an auto-assigned integer primary key [id], a [unique] constraint
    on [username], and [created_at] defaulted to [datetime.now]. The engine
    is the nominal one: it answers every statement (no I/O failure), and
    its keys are unbounded integers. The model stands for the engine where
    the engine's INTEGER does not run out: an id that is asked for lies
    within the signed 64-bit range ([in_int64]; outside it the driver
    raises [OverflowError] before the statement is run), the keys in use
    stay below the largest one ([keys_fit]; at the largest key the engine
    draws an unused key at random), and [db_path] names a file. *)

Module UserModel.
Record t := mk { id : Z; username : string; email : string; created_at : datetime }.

#[global] Instance eq_dec : EqDecision t.
Proof. solve_decision. Defined.
End UserModel.

(** The statements the engine is asked to run, in the order received. *)
Inductive statement :=
  | CreateAll (path : string)
  | Insert (path : string)
  | Select (path : string).

#[global] Instance statement_eq_dec : EqDecision statement.
Proof. solve_decision. Defined.

(** What the process can read and write outside its own objects: the
    environment variables, and per database file the rows of [users] in
    storage order (no entry: the file has no such relation). *)
Record World := mkWorld {
  environ : gmap string string;
  files : gmap string (list UserModel.t);
  statements : list statement
}.

(** [Base.metadata.create_all]: create-if-absent. *)
Definition create_all (path : string) (w : World) : World :=
  {| environ := environ w;
     files := match files w !! path with
              | Some _ => files w
              | None => <[path := []]> (files w)
              end;
     statements := statements w ++ [CreateAll path] |}.

(** The key the engine assigns to a new row: 1 in an empty relation, else
    one more than the largest key in use. *)
Definition next_rowid (rows : list UserModel.t) : Z :=
  match rows with
  | [] => 1
  | r :: rows' => 1 + foldr Z.max (UserModel.id r) (map UserModel.id rows')
  end.

(** [session.add(UserModel(username, email)); commit; refresh]. A violated
    [unique] constraint raises and rolls the unit of work back. *)
Definition insert_user (path : string) (now : datetime) (username email : string)
    (w : World) : result UserModel.t * World :=
  let w' := {| environ := environ w; files := files w;
               statements := statements w ++ [Insert path] |} in
  match files w !! path with
  | None => (Raise OperationalError, w')
  | Some rows =>
      if decide (username ∈ map UserModel.username rows)
      then (Raise IntegrityError, w')
      else
        let row := UserModel.mk (next_rowid rows) username email now in
        (Ok row, {| environ := environ w;
                    files := <[path := rows ++ [row]]> (files w);
                    statements := statements w ++ [Insert path] |})
  end.

(** [ORDER BY id]: a stable insertion sort on the key. *)
Fixpoint insert_by_id (r : UserModel.t) (rows : list UserModel.t) : list UserModel.t :=
  match rows with
  | [] => [r]
  | r' :: rows' =>
      if decide (UserModel.id r < UserModel.id r')
      then r :: r' :: rows'
      else r' :: insert_by_id r rows'
  end.

Definition order_by_id (rows : list UserModel.t) : list UserModel.t :=
  foldr insert_by_id [] (reverse rows).

(** [select(UserModel).where(UserModel.id == user_id)] *)
Definition select_where_id (path : string) (user_id : Z) (w : World)
    : result (list UserModel.t) * World :=
  let w' := {| environ := environ w; files := files w;
               statements := statements w ++ [Select path] |} in
  match files w !! path with
  | None => (Raise OperationalError, w')
  | Some rows => (Ok (filter (λ r, UserModel.id r = user_id) rows), w')
  end.

(** [select(UserModel).order_by(UserModel.id)] *)
Definition select_order_by_id (path : string) (w : World)
    : result (list UserModel.t) * World :=
  let w' := {| environ := environ w; files := files w;
               statements := statements w ++ [Select path] |} in
  match files w !! path with
  | None => (Raise OperationalError, w')
  | Some rows => (Ok (order_by_id rows), w')
  end.

(** [Result.scalar_one_or_none] *)
Definition scalar_one_or_none (rows : list UserModel.t) : result (option UserModel.t) :=
  match rows with
  | [] => Ok None
  | [r] => Ok (Some r)
  | _ => Raise MultipleResultsFound
  end.

(** [User.model_validate] with [from_attributes=True] *)
Definition model_validate (r : UserModel.t) : User.t :=
  User.mk (UserModel.id r) (UserModel.username r) (UserModel.email r)
          (UserModel.created_at r).

(** ** app/repository.py: the persistent backend *)

Module SQLiteUserRepository.

(** [self.db_path] and [self._initialized]; [self.session_maker] is
    determined by [db_path]. *)
Record t := mk { db_path : string; _initialized : bool }.

(** [__init__]: no statement is sent to the engine. *)
Definition new (db_path : string) : t :=
  {| db_path := db_path; _initialized := false |}.

(** A method runs on the instance and the world, and returns or raises. *)
Definition M (A : Type) : Type := t * World → result A * (t * World).

#[export] Instance M_ret : MRet M := λ A a σ, (Ok a, σ).
#[export] Instance M_bind : MBind M := λ A B k m σ,
  match m σ with
  | (Ok a, σ') => k a σ'
  | (Raise e, σ') => (Raise e, σ')
  end.

Definition self_ : M t := λ σ, (Ok σ.1, σ).
Definition set_initialized (b : bool) : M unit :=
  λ σ, (Ok (), ({| db_path := db_path σ.1; _initialized := b |}, σ.2)).
Definition run_sync_create_all (path : string) : M unit :=
  λ σ, (Ok (), (σ.1, create_all path σ.2)).
Definition session {A} (q : World → result A * World) : M A :=
  λ σ, let '(r, w) := q σ.2 in (r, (σ.1, w)).
Definition lift {A} (r : result A) : M A := λ σ, (r, σ).

Definition _init_db : M unit :=
  self ← self_;
  if _initialized self then mret ()
  else
    run_sync_create_all (db_path self) ≫= λ _,
    set_initialized true.

Definition create_user (now : datetime) (username email : string) : M User.t :=
  _init_db ≫= λ _,
  self ← self_;
  db_user ← session (insert_user (db_path self) now username email);
  mret (model_validate db_user).

Definition get_user (user_id : Z) : M (option User.t) :=
  _init_db ≫= λ _,
  self ← self_;
  rows ← session (select_where_id (db_path self) user_id);
  db_user ← lift (scalar_one_or_none rows);
  match db_user with
  | Some r => mret (Some (model_validate r))
  | None => mret None
  end.

Definition list_users : M (list User.t) :=
  _init_db ≫= λ _,
  self ← self_;
  db_users ← session (select_order_by_id (db_path self));
  mret (map model_validate db_users).

End SQLiteUserRepository.

(** ** The abstract base class [UserRepository] *)

Class UserRepository (R : Type) := {
  create_user : datetime → string → string → R → result User.t * R;
  get_user : Z → R → result (option User.t) * R;
  list_users : R → result (list User.t) * R
}.

#[global] Instance InMemory_UserRepository : UserRepository InMemoryUserRepository.t := {
  create_user now username email self :=
    let '(u, self') := InMemoryUserRepository.create_user now username email self in
    (Ok u, self');
  get_user user_id self :=
    let '(u, self') := InMemoryUserRepository.get_user user_id self in (Ok u, self');
  list_users self :=
    let '(us, self') := InMemoryUserRepository.list_users self in (Ok us, self')
}.

#[global] Instance SQLite_UserRepository
  : UserRepository (SQLiteUserRepository.t * World) := {
  create_user := SQLiteUserRepository.create_user;
  get_user := SQLiteUserRepository.get_user;
  list_users := SQLiteUserRepository.list_users
}.

(** ** app/factory.py *)

Inductive Repository :=
  | Memory (r : InMemoryUserRepository.t)
  | SQLite (r : SQLiteUserRepository.t).

(** [os.getenv(key, default)] *)
Definition getenv (key dflt : string) (w : World) : string :=
  default dflt (environ w !! key).

Definition create_user_repository (repo_type : option string) (w : World)
    : result Repository * World :=
  let repo_type :=
    match repo_type with
    | None => getenv "REPO_TYPE" "memory" w
    | Some s => s
    end in
  let repo_type := lower repo_type in
  if decide (repo_type = "memory") then
    (Ok (Memory InMemoryUserRepository.new), w)
  else if decide (repo_type = "sqlite") then
    (Ok (SQLite (SQLiteUserRepository.new "users.db")), w)
  else
    (Raise (ValueError ("Unknown repository type: " +:+ repo_type +:+
                        ". Use 'memory' or 'sqlite'")), w).

(** ** The in-memory backend under interleaving

    [create_user] of [InMemoryUserRepository], cut into the steps between
    which another caller may run. Every statement inside [async with
    self._lock] is a step of its own, and [self._next_id += 1] is a read
    followed by a write: the schedules of this model include those of a pool
    of threads, and so those of the cooperative event loop, which only
    switches at an [await]. *)

Module Interleaved.

(** Where a call of [create_user] stands. *)
Inductive pc :=
  | AwaitLock                           (* before [async with self._lock] *)
  | BuildUser                           (* lock held, before [User(...)] *)
  | StoreUser (user : User.t)           (* before [self._users[user.id] = user] *)
  | LoadNextId (user : User.t)          (* before the read of [self._next_id += 1] *)
  | StoreNextId (user : User.t) (v : Z) (* before the write of [self._next_id += 1] *)
  | ReleaseLock (user : User.t)         (* before leaving [async with] *)
  | Returned (user : User.t).

(** One call: its arguments, the clock reading it will get, its place. *)
Record call := mkCall {
  now : datetime; username : string; email : string; at_ : pc
}.

Record state := mkState {
  _users : list (Z * User.t);
  _next_id : Z;
  _lock : bool;
  calls : list call
}.

Definition move (c : call) (p : pc) : call :=
  {| now := now c; username := username c; email := email c; at_ := p |}.

(** The [i]-th call is given the processor for one step. A call that
    waits for a held lock, or has returned, does not move. *)
Definition step (i : nat) (s : state) : state :=
  match calls s !! i with
  | None => s
  | Some c =>
      match at_ c with
      | AwaitLock =>
          if _lock s then s
          else mkState (_users s) (_next_id s) true
                       (<[i := move c BuildUser]> (calls s))
      | BuildUser =>
          let user := User.mk (_next_id s) (username c) (email c) (now c) in
          mkState (_users s) (_next_id s) (_lock s)
                  (<[i := move c (StoreUser user)]> (calls s))
      | StoreUser user =>
          mkState (dict_set (User.id user) user (_users s)) (_next_id s) (_lock s)
                  (<[i := move c (LoadNextId user)]> (calls s))
      | LoadNextId user =>
          mkState (_users s) (_next_id s) (_lock s)
                  (<[i := move c (StoreNextId user (_next_id s))]> (calls s))
      | StoreNextId user v =>
          mkState (_users s) (v + 1) (_lock s)
                  (<[i := move c (ReleaseLock user)]> (calls s))
      | ReleaseLock user =>
          mkState (_users s) (_next_id s) false
                  (<[i := move c (Returned user)]> (calls s))
      | Returned _ => s
      end
  end.

(** A schedule names the call that moves at each step. *)
Definition run (sched : list nat) (s : state) : state :=
  foldl (λ s i, step i s) s sched.

(** A fresh instance and the calls launched against it. *)
Definition launch (args : list (datetime * string * string)) : state :=
  mkState [] 1 false
          (map (λ a, mkCall a.1.1 a.1.2 a.2 AwaitLock) args).

Definition returned (c : call) : option User.t :=
  match at_ c with Returned u => Some u | _ => None end.


(** The users the calls have returned, in the order of the calls. *)
Definition results (s : state) : list User.t := omap returned (calls s).

End Interleaved.

(** ** Words of the factory's contract

    [any_case pat s]: [s] is the lower-case word [pat] with each letter in
    either case. [contains p s]: Python's [p in s]. *)

Definition is_ascii_lower (d : ascii) : bool :=
  ((97 <=? N_of_ascii d) && (N_of_ascii d <=? 122))%N.

Definition upper_of (d : ascii) : ascii := ascii_of_N (N_of_ascii d - 32).

Definition letter_any_case (d c : ascii) : bool :=
  Ascii.eqb c d || Ascii.eqb c (upper_of d).

Fixpoint any_case (pat s : string) : bool :=
  match pat, s with
  | EmptyString, EmptyString => true
  | String d pat', String c s' => letter_any_case d c && any_case pat' s'
  | _, _ => false
  end.

Fixpoint lower_word (pat : string) : bool :=
  match pat with
  | EmptyString => true
  | String d pat' => is_ascii_lower d && lower_word pat'
  end.

Fixpoint starts_with (p s : string) : bool :=
  match p, s with
  | EmptyString, _ => true
  | String c p', String c' s' => Ascii.eqb c c' && starts_with p' s'
  | String _ _, EmptyString => false
  end.

Fixpoint contains (p s : string) : bool :=
  starts_with p s ||
  match s with
  | EmptyString => false
  | String _ s' => contains p s'
  end.

(** ** Callers

    A caller of the interface (the handlers of [app/main.py]) issues the
    three operations in some order on one instance. *)

Inductive op :=
  | CreateUser (now : datetime) (username email : string)
  | GetUser (user_id : Z)
  | ListUsers.

Inductive answer :=
  | Created (r : result User.t)
  | Got (r : result (option User.t))
  | Listed (r : result (list User.t)).

Section caller.
Context {R : Type} `{!UserRepository R}.

Definition call (o : op) (repo : R) : answer * R :=
  match o with
  | CreateUser now username email =>
      let '(r, repo') := create_user now username email repo in (Created r, repo')
  | GetUser user_id =>
      let '(r, repo') := get_user user_id repo in (Got r, repo')
  | ListUsers =>
      let '(r, repo') := list_users repo in (Listed r, repo')
  end.

(** The answers of a sequence of operations, and the instance after it. *)
Fixpoint calls (os : list op) (repo : R) : list answer * R :=
  match os with
  | [] => ([], repo)
  | o :: os' =>
      let '(a, repo') := call o repo in
      let '(as_, repo'') := calls os' repo' in
      (a :: as_, repo'')
  end.
End caller.

(** The rows the persistent instance reads: the relation [users] of its
    database file (none before the schema exists). *)
Definition stored_rows (σ : SQLiteUserRepository.t * World) : list UserModel.t :=
  default [] (files σ.2 !! SQLiteUserRepository.db_path σ.1).


(** ** app/models.py: the request schema *)

Module UserCreate.
Record t := mk { username : string; email : string }.
End UserCreate.

(** ** app/main.py

    The module globals [repo_type] and [repo], the statements run when the
    module is loaded, and the bodies of the handlers. What the framework
    does around a handler (parsing and validating the request, turning the
    returned value or the raised exception into a response) is not part of
    the embedding. *)

(** [load_dotenv()], which [app/factory.py] and [app/main.py] call when
    they are loaded: the variables of the [.env] file are added to the
    environment, and a variable that is set already keeps its value.
    [dotenv] is what the file defines; it is empty when there is no file. *)
Definition load_dotenv (dotenv : gmap string string) (w : World) : World :=
  {| environ := environ w ∪ dotenv; files := files w; statements := statements w |}.

(** [repo] is either variant; a call on it goes to the variant's method. *)
#[global] Instance Repository_UserRepository : UserRepository (Repository * World) := {
  create_user now username email ρ :=
    match ρ.1 with
    | Memory r =>
        let '(x, r') := create_user now username email r in (x, (Memory r', ρ.2))
    | SQLite r =>
        let '(x, σ) := create_user now username email (r, ρ.2) in (x, (SQLite σ.1, σ.2))
    end;
  get_user user_id ρ :=
    match ρ.1 with
    | Memory r => let '(x, r') := get_user user_id r in (x, (Memory r', ρ.2))
    | SQLite r => let '(x, σ) := get_user user_id (r, ρ.2) in (x, (SQLite σ.1, σ.2))
    end;
  list_users ρ :=
    match ρ.1 with
    | Memory r => let '(x, r') := list_users r in (x, (Memory r', ρ.2))
    | SQLite r => let '(x, σ) := list_users (r, ρ.2) in (x, (SQLite σ.1, σ.2))
    end
}.

Module Main.

(** The methods of [repo], under names that the handlers of the same name
    do not hide. *)
Local Abbreviation repo_create_user := create_user (only parsing).
Local Abbreviation repo_get_user := get_user (only parsing).
Local Abbreviation repo_list_users := list_users (only parsing).

Record t := mk { repo_type : string; repo : Repository }.

(** How a handler ends: it returns, raises [HTTPException], or lets an
    exception of the repository pass. *)
Inductive outcome (A : Type) :=
  | Return (a : A)
  | HTTPException (status_code : Z) (detail : string)
  | Propagate (e : exception).
Arguments Return {A} a.
Arguments HTTPException {A} status_code detail.
Arguments Propagate {A} e.

Definition of_result {A} (r : result A) : outcome A :=
  match r with Ok a => Return a | Raise e => Propagate e end.

(** The module body. Importing [app.factory] runs its [load_dotenv()],
    then come [load_dotenv()], [repo_type = os.getenv(...)] and
    [repo = create_user_repository()] of [main.py] itself. *)
Definition load (dotenv : gmap string string) (w : World) : result t * World :=
  let w := load_dotenv dotenv w in
  let w := load_dotenv dotenv w in
  let repo_type := getenv "REPO_TYPE" "memory" w in
  match create_user_repository None w with
  | (Ok repo, w') => (Ok (mk repo_type repo), w')
  | (Raise e, w') => (Raise e, w')
  end.

(** [root]: the entries [message] and [repository_type] of the answer. *)
Definition root (app : t) : list (string * string) :=
  [("message", "User Registration API - Factory Pattern Demo");
   ("repository_type", repo_type app)].

Definition register_user (now : datetime) (user_data : UserCreate.t)
    (σ : t * World) : outcome User.t * (t * World) :=
  let '(r, ρ) := repo_create_user now (UserCreate.username user_data)
                   (UserCreate.email user_data) (repo σ.1, σ.2) in
  (of_result r, (mk (repo_type σ.1) ρ.1, ρ.2)).

Definition list_users (σ : t * World) : outcome (list User.t) * (t * World) :=
  let '(r, ρ) := repo_list_users (repo σ.1, σ.2) in
  (of_result r, (mk (repo_type σ.1) ρ.1, ρ.2)).

Definition get_user (user_id : Z) (σ : t * World) : outcome User.t * (t * World) :=
  let '(r, ρ) := repo_get_user user_id (repo σ.1, σ.2) in
  (match r with
   | Ok None =>
       HTTPException 404 ("User with ID " +:+ pretty user_id +:+ " not found")
   | Ok (Some user) => Return user
   | Raise e => Propagate e
   end,
   (mk (repo_type σ.1) ρ.1, ρ.2)).

(** The requests that reach the three handlers, and what they end in. *)
Inductive request :=
  | PostUsers (now : datetime) (user_data : UserCreate.t)
  | GetUsers
  | GetUsersId (user_id : Z).

Inductive response :=
  | Registered (r : outcome User.t)
  | UserList (r : outcome (list User.t))
  | UserFound (r : outcome User.t).

Definition handle (q : request) (σ : t * World) : response * (t * World) :=
  match q with
  | PostUsers now user_data =>
      let '(r, σ') := register_user now user_data σ in (Registered r, σ')
  | GetUsers => let '(r, σ') := list_users σ in (UserList r, σ')
  | GetUsersId user_id => let '(r, σ') := get_user user_id σ in (UserFound r, σ')
  end.

Fixpoint serve (qs : list request) (σ : t * World) : list response * (t * World) :=
  match qs with
  | [] => ([], σ)
  | q :: qs' =>
      let '(a, σ') := handle q σ in
      let '(as_, σ'') := serve qs' σ' in
      (a :: as_, σ'')
  end.

End Main.

(** ** script.py: the data stores

    A [dict] from [str] to [str] is an association list in insertion order.
    A file written by [FileStore] holds one JSON object of strings; the
    embedding takes that object as the content of the file, which is what
    [json.load] gives back from what [json.dump] wrote. Files that hold
    anything else are outside the model. The [print] calls are left out. *)

(** [d[key] = value] *)
Fixpoint data_set (key value : string) (d : list (string * string))
    : list (string * string) :=
  match d with
  | [] => [(key, value)]
  | (k, v) :: d' =>
      if decide (k = key) then (k, value) :: d' else (k, v) :: data_set key value d'
  end.

(** [d.get(key)] *)
Fixpoint data_get (key : string) (d : list (string * string)) : option string :=
  match d with
  | [] => None
  | (k, v) :: d' => if decide (k = key) then Some v else data_get key d'
  end.

(** [key in d] *)
Definition data_has (key : string) (d : list (string * string)) : bool :=
  bool_decide (key ∈ map fst d).

(** [del d[key]] *)
Definition data_del (key : string) (d : list (string * string))
    : list (string * string) :=
  filter (λ kv, kv.1 ≠ key) d.

(** The files of the working directory, by name. *)
Abbreviation Disk := (gmap string (list (string * string))).

Module InMemoryStore.

Record t := mk { _data : list (string * string) }.

Definition new : t := {| _data := [] |}.

Definition save (key value : string) (self : t) : unit * t :=
  ((), {| _data := data_set key value (_data self) |}).

Definition get (key : string) (self : t) : option string * t :=
  (data_get key (_data self), self).

Definition delete (key : string) (self : t) : bool * t :=
  if data_has key (_data self)
  then (true, {| _data := data_del key (_data self) |})
  else (false, self).

Definition list_all (self : t) : list (string * string) * t :=
  (_data self, self).

End InMemoryStore.

Module FileStore.

Record t := mk { filename : string; _data : list (string * string) }.

Definition _load (self : t) (disk : Disk) : t :=
  match disk !! filename self with
  | Some d => {| filename := filename self; _data := d |}
  | None => self
  end.

(** [__init__] *)
Definition new (filename : string) (disk : Disk) : t :=
  _load {| filename := filename; _data := [] |} disk.

Definition _save_to_file (self : t) (disk : Disk) : Disk :=
  <[filename self := _data self]> disk.

Definition save (key value : string) (σ : t * Disk) : unit * (t * Disk) :=
  let self := {| filename := filename σ.1;
                 _data := data_set key value (_data σ.1) |} in
  ((), (self, _save_to_file self σ.2)).

Definition get (key : string) (σ : t * Disk) : option string * (t * Disk) :=
  (data_get key (_data σ.1), σ).

Definition delete (key : string) (σ : t * Disk) : bool * (t * Disk) :=
  if data_has key (_data σ.1)
  then
    let self := {| filename := filename σ.1;
                   _data := data_del key (_data σ.1) |} in
    (true, (self, _save_to_file self σ.2))
  else (false, σ).

Definition list_all (σ : t * Disk) : list (string * string) * (t * Disk) :=
  (_data σ.1, σ).

End FileStore.

(** The abstract base class [DataStore]. *)
Module DataStore.
Class t (S : Type) := {
  save : string → string → S → unit * S;
  get : string → S → option string * S;
  delete : string → S → bool * S;
  list_all : S → list (string * string) * S
}.
End DataStore.

#[global] Instance InMemoryStore_DataStore : DataStore.t InMemoryStore.t := {|
  DataStore.save := InMemoryStore.save;
  DataStore.get := InMemoryStore.get;
  DataStore.delete := InMemoryStore.delete;
  DataStore.list_all := InMemoryStore.list_all
|}.

#[global] Instance FileStore_DataStore : DataStore.t (FileStore.t * Disk) := {|
  DataStore.save := FileStore.save;
  DataStore.get := FileStore.get;
  DataStore.delete := FileStore.delete;
  DataStore.list_all := FileStore.list_all
|}.

Inductive Store :=
  | MemoryStore (s : InMemoryStore.t)
  | DiskStore (s : FileStore.t).

(** [create_data_store]; [FileStore()] reads the file [data.json]. *)
Definition create_data_store (store_type : string) (disk : Disk) : result Store :=
  if decide (store_type = "memory") then Ok (MemoryStore InMemoryStore.new)
  else if decide (store_type = "file") then
    Ok (DiskStore (FileStore.new "data.json" disk))
  else Raise (ValueError ("Unknown store type: " +:+ store_type)).

(** The calls a user of a store makes, and their answers. *)
Inductive store_op :=
  | Save (key value : string)
  | Get (key : string)
  | Delete (key : string)
  | ListAll.

Inductive store_answer :=
  | Saved
  | Value (v : option string)
  | Deleted (found : bool)
  | Listing (d : list (string * string)).

Section store_user.
Context {S : Type} `{!DataStore.t S}.

Definition store_call (o : store_op) (s : S) : store_answer * S :=
  match o with
  | Save key value => let '(_, s') := DataStore.save key value s in (Saved, s')
  | Get key => let '(v, s') := DataStore.get key s in (Value v, s')
  | Delete key => let '(b, s') := DataStore.delete key s in (Deleted b, s')
  | ListAll => let '(d, s') := DataStore.list_all s in (Listing d, s')
  end.

Fixpoint store_calls (os : list store_op) (s : S) : list store_answer * S :=
  match os with
  | [] => ([], s)
  | o :: os' =>
      let '(a, s') := store_call o s in
      let '(as_, s'') := store_calls os' s' in
      (a :: as_, s'')
  end.
End store_user.

(** ** Notions of the statements and of their proofs *)

(** The users that the [create_user] calls among some answers returned. *)
Definition created (answers : list answer) : list User.t :=
  omap (λ a, match a with Created (Ok u) => Some u | _ => None end) answers.

Definition is_create (o : op) : bool :=
  match o with CreateUser _ _ _ => true | _ => false end.

(** The empty world: no variable set, no database file, nothing run. *)
Definition empty_world : World := mkWorld ∅ ∅ [].

(** Two users with one username, then a lookup and a listing. *)
Definition example_ops : list op :=
  [CreateUser 100 "alice" "alice@x.com"; GetUser 1;
   CreateUser 200 "bob" "bob@x.com"; ListUsers;
   CreateUser 300 "alice" "al@x.com"].

(** All characters. *)
Definition all_ascii : list ascii := map ascii_of_nat (seq 0 256).

(** The range of the engine's INTEGER. *)
Definition in_int64 (n : Z) : Prop := - 2 ^ 63 ≤ n < 2 ^ 63.

(** Every id that some operations ask for is in that range. *)
Definition ids_in_range (os : list op) : Prop :=
  Forall (λ o, match o with GetUser user_id => in_int64 user_id | _ => True end) os.

(** The keys that the [create_user] calls of some operations can be given,
    on top of the rows stored, do not pass the largest key. *)
Definition keys_fit (rows : list UserModel.t) (os : list op) : Prop :=
  next_rowid rows + Z.of_nat (length (filter is_create os)) ≤ 2 ^ 63.

(** An answer that the persistent backend may give on a database whose
    keys are distinct: only [create_user] raises, and only the integrity
    error. *)
Definition answer_ok (a : answer) : Prop :=
  match a with
  | Created (Raise e) => e = IntegrityError
  | Got (Raise _) | Listed (Raise _) => False
  | _ => True
  end.

(** The row that validates to a user. *)
Definition row_of_user (u : User.t) : UserModel.t :=
  UserModel.mk (User.id u) (User.username u) (User.email u) (User.created_at u).

(** The usernames that the [create_user] calls of some operations carry. *)
Definition create_usernames (os : list op) : list string :=
  omap (λ o, match o with CreateUser _ username _ => Some username | _ => None end) os.

Module InMemoryInv.
Import InMemoryUserRepository.

(** What holds of an instance that started fresh: the keys are 1, 2, ...
    in insertion order, each record sits under its own id, and the
    counter is one past the last key. *)
Definition inv (s : t) : Prop :=
  map fst (_users s) = seqZ 1 (Z.of_nat (length (_users s))) ∧
  map User.id (dict_values (_users s)) = map fst (_users s) ∧
  _next_id s = 1 + Z.of_nat (length (_users s)).
End InMemoryInv.

Module SQLiteInv.
Import SQLiteUserRepository.
Implicit Types (σ : t * World) (w : World).

(** The instance and the world once [_init_db] has run. *)
Definition init_self σ : t := mk (db_path σ.1) true.
Definition init_world σ : World :=
  if _initialized σ.1 then σ.2 else create_all (db_path σ.1) σ.2.

(** An instance is sound when its flag does not claim a schema that the
    database file lacks. A fresh instance is sound on every world. *)
Definition sound σ : Prop :=
  _initialized σ.1 = true → is_Some (files σ.2 !! db_path σ.1).

(** A user is held by some rows when exactly one row has its id, and
    that row validates to it. *)
Definition holds (rows : list UserModel.t) (u : User.t) : Prop :=
  ∃ r, filter (λ r', UserModel.id r' = User.id u) rows = [r] ∧
       model_validate r = u.
End SQLiteInv.

Module InterleavedInv.
Import Interleaved.

(** A call outside the critical section. *)
Definition idle (c : call) : Prop :=
  match at_ c with AwaitLock | Returned _ => True | _ => False end.


(** The user a call has put into the dict, if it has got that far. *)
Definition stored (c : call) : option User.t :=
  match at_ c with
  | LoadNextId u | StoreNextId u _ | ReleaseLock u | Returned u => Some u
  | _ => None
  end.

(** What the holder of the lock may rely on, by its place. *)
Definition holder_ok (s : state) (p : pc) : Prop :=
  let n := Z.of_nat (length (_users s)) in
  match p with
  | BuildUser => _next_id s = 1 + n
  | StoreUser u => _next_id s = 1 + n ∧ User.id u = _next_id s
  | LoadNextId u => _next_id s = n
  | StoreNextId u v => _next_id s = n ∧ v = n
  | ReleaseLock u => _next_id s = 1 + n
  | AwaitLock | Returned _ => False
  end.

(** The invariant of the interleaved runs: the keys of the dict are
    1, 2, ... and each record sits under its own id; the dict holds the
    users of the calls that have stored; a held lock has exactly one
    holder, all other calls are idle; with the lock free the counter is
    one past the last key. *)
Record inv (s : state) : Prop := mkInv {
  inv_keys : map fst (_users s) = seqZ 1 (Z.of_nat (length (_users s)));
  inv_ids : map User.id (map snd (_users s)) = map fst (_users s);
  inv_stored : map snd (_users s) ≡ₚ omap stored (calls s);
  inv_lock :
    if _lock s
    then ∃ l1 c l2, calls s = l1 ++ c :: l2 ∧
           Forall idle l1 ∧ Forall idle l2 ∧ holder_ok s (at_ c)
    else Forall idle (calls s) ∧
         _next_id s = 1 + Z.of_nat (length (_users s))
}.



End InterleavedInv.

(** The in-memory instance and the persistent instance hold the same
    users, in the same order, and will hand out the same id next. *)
Definition same_users (s : InMemoryUserRepository.t)
    (σ : SQLiteUserRepository.t * World) : Prop :=
  InMemoryInv.inv s ∧ SQLiteInv.sound σ ∧
  stored_rows σ = map row_of_user (dict_values (InMemoryUserRepository._users s)) ∧
  next_rowid (stored_rows σ) = InMemoryUserRepository._next_id s.

(** The operation of the repository that a request leads to, and the
    response that the handler makes of the repository's answer. *)
Definition op_of_request (q : Main.request) : op :=
  match q with
  | Main.PostUsers now user_data =>
      CreateUser now (UserCreate.username user_data) (UserCreate.email user_data)
  | Main.GetUsers => ListUsers
  | Main.GetUsersId user_id => GetUser user_id
  end.

Definition respond (q : Main.request) (a : answer) : Main.response :=
  match a with
  | Created r => Main.Registered (Main.of_result r)
  | Listed r => Main.UserList (Main.of_result r)
  | Got r =>
      Main.UserFound
        match r with
        | Ok None =>
            Main.HTTPException 404
              ("User with ID " +:+
               pretty (match q with Main.GetUsersId user_id => user_id | _ => 0 end)
               +:+ " not found")
        | Ok (Some user) => Main.Return user
        | Raise e => Main.Propagate e
        end
  end.

(** The users that [register_user] returned among some responses. *)
Definition registered (responses : list Main.response) : list User.t :=
  omap (λ a, match a with Main.Registered (Main.Return u) => Some u | _ => None end)
       responses.

(** A call on a store that only reads. *)
Definition is_read (o : store_op) : bool :=
  match o with Get _ | ListAll => true | _ => false end.

(** What a call on a store answers, what it makes of the data, and whether
    it writes the data out, as functions of the data alone. *)
Definition data_answer (o : store_op) (d : list (string * string)) : store_answer :=
  match o with
  | Save _ _ => Saved
  | Get key => Value (data_get key d)
  | Delete key => Deleted (data_has key d)
  | ListAll => Listing d
  end.

Definition data_after (o : store_op) (d : list (string * string))
    : list (string * string) :=
  match o with
  | Save key value => data_set key value d
  | Delete key => if data_has key d then data_del key d else d
  | Get _ | ListAll => d
  end.

Definition data_written (o : store_op) (d : list (string * string)) : bool :=
  match o with
  | Save _ _ => true
  | Delete key => data_has key d
  | Get _ | ListAll => false
  end.

(** The laws of a dictionary, for a store behind the [DataStore]
    interface. *)
Definition dictionary_laws (S : Type) `{!DataStore.t S} : Prop :=
  ∀ (s : S) (key value other : string),
    (DataStore.get key (DataStore.save key value s).2).1 = Some value ∧
    (other ≠ key →
     (DataStore.get other (DataStore.save key value s).2).1
       = (DataStore.get other s).1) ∧
    (DataStore.delete key s).1 = bool_decide (is_Some (DataStore.get key s).1) ∧
    (DataStore.get key (DataStore.delete key s).2).1 = None ∧
    (other ≠ key →
     (DataStore.get other (DataStore.delete key s).2).1
       = (DataStore.get other s).1) ∧
    ((DataStore.get key s).1 = None → (DataStore.delete key s).2 = s) ∧
    (DataStore.get key s).2 = s ∧
    (DataStore.list_all s).2 = s ∧
    (DataStore.get key s).1 = data_get key (DataStore.list_all s).1.

(** * Properties *)

(** ** Dictionaries *)

Section dict_facts.
Context {V : Type}.
Implicit Types (d : list (Z * V)) (k : Z) (v : V).

Lemma dict_get_set_eq k v d : dict_get k (dict_set k v d) = Some v.
Proof.
  induction d as [|[k' v'] d IH]; simpl.
  - by rewrite decide_True.
  - destruct (decide (k' = k)) as [->|Hne]; simpl.
    + by rewrite decide_True.
    + by rewrite decide_False.
Qed.

Lemma dict_get_set_ne k k' v d : k ≠ k' → dict_get k' (dict_set k v d) = dict_get k' d.
Proof.
  intros Hne. induction d as [|[k0 v0] d IH]; simpl.
  - by rewrite decide_False.
  - destruct (decide (k0 = k)) as [->|Hne0]; simpl.
    + by rewrite !decide_False.
    + by rewrite IH.
Qed.

Lemma dict_get_None k d : k ∉ map fst d → dict_get k d = None.
Proof.
  induction d as [|[k' v'] d IH]; simpl; [done|].
  rewrite not_elem_of_cons. intros [Hne Hnin].
  rewrite decide_False; [auto | congruence].
Qed.

Lemma dict_set_fresh k v d : k ∉ map fst d → dict_set k v d = d ++ [(k, v)].
Proof.
  induction d as [|[k' v'] d IH]; simpl; [done|].
  rewrite not_elem_of_cons. intros [Hne Hnin].
  rewrite decide_False; [by rewrite IH | congruence].
Qed.
End dict_facts.

(** ** Sequences of keys *)

Lemma seqZ_lt_sorted (m : Z) (n : nat) : StronglySorted Z.lt (seqZ m (Z.of_nat n)).
Proof.
  induction n as [|n IH].
  - rewrite seqZ_nil by lia. constructor.
  - rewrite seqZ_S. apply StronglySorted_app_2; [| done | repeat constructor].
    intros x y Hx Hy. apply elem_of_seqZ in Hx.
    apply list_elem_of_singleton in Hy. lia.
Qed.

Lemma StronglySorted_lt_le (l : list Z) : StronglySorted Z.lt l → Sorted Z.le l.
Proof.
  intros H. apply StronglySorted_Sorted.
  induction H as [|x l Hl IH Hx]; constructor; [done|].
  eapply Forall_impl; [exact Hx|]. simpl. lia.
Qed.

Lemma created_cons (a : answer) (answers : list answer) :
  created (a :: answers) = created [a] ++ created answers.
Proof. by destruct a as [[u|e]|r|r]. Qed.

(** ** One operation of a caller *)

Section call_facts.
Context {R : Type} `{!UserRepository R}.

Lemma call_fst (o : op) (repo : R) :
  (call o repo).1 =
    match o with
    | CreateUser now username email =>
        Created (create_user now username email repo).1
    | GetUser user_id => Got (get_user user_id repo).1
    | ListUsers => Listed (list_users repo).1
    end.
Proof.
  destruct o as [now username email | user_id |]; simpl.
  - by destruct (create_user _ _ _ _).
  - by destruct (get_user _ _).
  - by destruct (list_users _).
Qed.

Lemma call_snd (o : op) (repo : R) :
  (call o repo).2 =
    match o with
    | CreateUser now username email => (create_user now username email repo).2
    | GetUser user_id => (get_user user_id repo).2
    | ListUsers => (list_users repo).2
    end.
Proof.
  destruct o as [now username email | user_id |]; simpl.
  - by destruct (create_user _ _ _ _).
  - by destruct (get_user _ _).
  - by destruct (list_users _).
Qed.

Lemma calls_cons (o : op) (os : list op) (repo : R) :
  calls (o :: os) repo =
    ((call o repo).1 :: (calls os (call o repo).2).1,
     (calls os (call o repo).2).2).
Proof.
  simpl. destruct (call o repo) as [a repo']. simpl.
  by destruct (calls os repo').
Qed.
End call_facts.

(** ** The in-memory backend, one caller *)

Module InMemoryFacts.
Import InMemoryUserRepository InMemoryInv.

Lemma inv_new : inv new.
Proof. done. Qed.

Lemma create_user_appends now username email s :
  inv s →
  _users (create_user now username email s).2 =
    _users s ++ [(_next_id s, (create_user now username email s).1)].
Proof.
  intros (Hkeys & _ & Hnext). simpl. apply dict_set_fresh.
  rewrite Hkeys, elem_of_seqZ. lia.
Qed.

Lemma inv_create_user now username email s :
  inv s → inv (create_user now username email s).2.
Proof.
  intros Hinv. pose proof (create_user_appends now username email s Hinv) as Happ.
  destruct Hinv as (Hkeys & Hids & Hnext).
  unfold inv. rewrite Happ. unfold dict_values in *.
  rewrite !map_app, length_app, Nat2Z.inj_add, Hids, Hkeys. simpl.
  split_and!; [| done | lia].
  rewrite Hnext. change (Z.of_nat 1) with 1.
  rewrite seqZ_app by lia. by f_equal.
Qed.

Lemma call_state (o : op) (s : t) :
  (call o s).2 =
    match o with
    | CreateUser now username email => (create_user now username email s).2
    | _ => s
    end.
Proof. by destruct o. Qed.

Lemma inv_calls (os : list op) (s : t) : inv s → inv (calls os s).2.
Proof.
  revert s. induction os as [|o os IH]; intros s Hinv; simpl; [done|].
  destruct (call o s) as [a s'] eqn:Hc.
  specialize (IH s'). destruct (calls os s') as [as_ s''].
  apply IH. replace s' with (call o s).2 by (by rewrite Hc).
  rewrite call_state. destruct o; auto using inv_create_user.
Qed.

(** The ids handed out are the consecutive values of the counter. *)
Lemma created_ids (os : list op) (s : t) :
  map User.id (created (calls os s).1) =
    seqZ (_next_id s) (Z.of_nat (length (filter is_create os))) ∧
  _next_id (calls os s).2 =
    _next_id s + Z.of_nat (length (filter is_create os)).
Proof.
  revert s. induction os as [|o os IH]; intros s; simpl.
  - split; [done | lia].
  - destruct o as [now username email | user_id |]; simpl.
    + specialize (IH (create_user now username email s).2).
      simpl in IH.
      destruct (calls os _) as [as_ s''] eqn:Hcs. simpl in *.
      destruct IH as [IH1 IH2]. split; [| lia].
      rewrite IH1, (seqZ_cons _ (Z.of_nat (S _))) by lia.
      f_equal. f_equal; lia.
    + specialize (IH s). by destruct (calls os s) as [as_ s''].
    + specialize (IH s). by destruct (calls os s) as [as_ s''].
Qed.

(** The store after some operations: the old records, then the created
    ones in call order. *)
Lemma users_after_calls (os : list op) (s : t) :
  inv s →
  dict_values (_users (calls os s).2) =
    dict_values (_users s) ++ created (calls os s).1.
Proof.
  revert s. induction os as [|o os IH]; intros s Hinv; simpl.
  - by rewrite app_nil_r.
  - destruct o as [now username email | user_id |]; simpl.
    + pose proof (inv_create_user now username email s Hinv) as Hinv'.
      pose proof (create_user_appends now username email s Hinv) as Happ.
      specialize (IH _ Hinv'). simpl in IH, Happ.
      destruct (calls os _) as [as_ s''] eqn:Hcs. simpl in *.
      rewrite IH, Happ. unfold dict_values. rewrite map_app. simpl.
      by rewrite <- app_assoc.
    + specialize (IH s Hinv). by destruct (calls os s) as [as_ s''].
    + specialize (IH s Hinv). by destruct (calls os s) as [as_ s''].
Qed.

(** A record, once stored, is what [get_user] finds after any further
    operations. *)
Lemma get_after_calls (os : list op) (s : t) (k : Z) :
  k < _next_id s →
  dict_get k (_users (calls os s).2) = dict_get k (_users s).
Proof.
  revert s. induction os as [|o os IH]; intros s Hk; simpl; [done|].
  destruct o as [now username email | user_id |]; simpl.
  - specialize (IH (create_user now username email s).2). simpl in IH.
    destruct (calls os _) as [as_ s'']. simpl in *.
    rewrite IH by lia. apply dict_get_set_ne. lia.
  - specialize (IH s Hk). by destruct (calls os s).
  - specialize (IH s Hk). by destruct (calls os s).
Qed.

Lemma get_created (os : list op) (s : t) (u : User.t) :
  u ∈ created (calls os s).1 →
  dict_get (User.id u) (_users (calls os s).2) = Some u.
Proof.
  revert s. induction os as [|o os IH]; intros s; simpl.
  - by intros ?%elem_of_nil.
  - destruct o as [now username email | user_id |]; simpl.
    + pose proof (get_after_calls os (create_user now username email s).2
                    (_next_id s)) as Hkeep.
      specialize (IH (create_user now username email s).2). simpl in IH, Hkeep.
      destruct (calls os _) as [as_ s'']. simpl in *.
      intros [->|Hin]%elem_of_cons; [| auto].
      simpl. rewrite Hkeep by lia. apply dict_get_set_eq.
    + specialize (IH s). by destruct (calls os s).
    + specialize (IH s). by destruct (calls os s).
Qed.

End InMemoryFacts.

(** ** The storage engine *)

Lemma next_rowid_gt (rows : list UserModel.t) (r : UserModel.t) :
  r ∈ rows → UserModel.id r < next_rowid rows.
Proof.
  destruct rows as [|r0 rows]; [by intros ?%elem_of_nil|].
  unfold next_rowid. revert r0 r.
  induction rows as [|r1 rows IH]; intros r0 r; simpl.
  - intros ->%list_elem_of_singleton. lia.
  - intros [Heq|[Heq|Hin]%elem_of_cons]%elem_of_cons.
    + rewrite Heq. specialize (IH r0 r0 (list_elem_of_here _ _)). lia.
    + rewrite Heq. lia.
    + specialize (IH r0 r (list_elem_of_further _ _ _ Hin)). lia.
Qed.

Lemma insert_by_id_perm (r : UserModel.t) (rows : list UserModel.t) :
  insert_by_id r rows ≡ₚ r :: rows.
Proof.
  induction rows as [|r' rows IH]; simpl; [done|].
  case_decide; [done|]. by rewrite IH, Permutation_swap.
Qed.

Lemma order_by_id_perm (rows : list UserModel.t) : order_by_id rows ≡ₚ rows.
Proof.
  unfold order_by_id. rewrite <- (reverse_Permutation rows) at 2.
  induction (reverse rows) as [|r l IH]; simpl; [done|].
  by rewrite insert_by_id_perm, IH.
Qed.

Lemma insert_by_id_sorted (r : UserModel.t) (rows : list UserModel.t) :
  Sorted Z.le (map UserModel.id rows) →
  Sorted Z.le (map UserModel.id (insert_by_id r rows)).
Proof.
  induction rows as [|r' rows IH]; simpl; intros Hs.
  - repeat constructor.
  - case_decide as Hlt; simpl.
    + constructor; [done|]. constructor. lia.
    + apply Sorted_inv in Hs as [Hs Hhd].
      constructor; [auto|].
      destruct rows as [|r'' rows]; simpl in *.
      * constructor. lia.
      * case_decide; simpl; constructor; [lia|].
        by apply HdRel_inv in Hhd.
Qed.

Lemma order_by_id_sorted (rows : list UserModel.t) :
  Sorted Z.le (map UserModel.id (order_by_id rows)).
Proof.
  unfold order_by_id. induction (reverse rows) as [|r l IH]; simpl.
  - constructor.
  - by apply insert_by_id_sorted.
Qed.

Lemma filter_id_absent (user_id : Z) (rows : list UserModel.t) :
  user_id ∉ map UserModel.id rows →
  filter (λ r, UserModel.id r = user_id) rows = [].
Proof.
  induction rows as [|r rows IH]; simpl; [done|].
  rewrite not_elem_of_cons. intros [Hne Hnin].
  rewrite filter_cons_False by congruence. auto.
Qed.

(** ** The persistent backend, one caller *)

Module SQLiteFacts.
Import SQLiteUserRepository SQLiteInv.
Implicit Types (σ : t * World) (w : World).

Lemma _init_db_unfold σ : _init_db σ = (Ok (), (init_self σ, init_world σ)).
Proof. by destruct σ as [[path []] w]. Qed.

Lemma create_user_unfold now username email σ :
  create_user now username email σ =
    match insert_user (db_path σ.1) now username email (init_world σ) with
    | (Ok r, w) => (Ok (model_validate r), (init_self σ, w))
    | (Raise e, w) => (Raise e, (init_self σ, w))
    end.
Proof.
  destruct σ as [[path []] w]; unfold create_user, init_world; simpl;
    unfold mbind, M_bind, session; simpl;
    by destruct (insert_user _ _ _ _ _) as [[r|e] w'].
Qed.

Lemma get_user_unfold user_id σ :
  get_user user_id σ =
    match select_where_id (db_path σ.1) user_id (init_world σ) with
    | (Ok rows, w) =>
        match scalar_one_or_none rows with
        | Ok (Some r) => (Ok (Some (model_validate r)), (init_self σ, w))
        | Ok None => (Ok None, (init_self σ, w))
        | Raise e => (Raise e, (init_self σ, w))
        end
    | (Raise e, w) => (Raise e, (init_self σ, w))
    end.
Proof.
  destruct σ as [[path []] w]; unfold get_user, init_world; simpl;
    unfold mbind, M_bind, session, lift; simpl;
    destruct (select_where_id _ _ _) as [[rows|e] w']; try done;
    by destruct (scalar_one_or_none rows) as [[r|]|e].
Qed.

Lemma list_users_unfold σ :
  list_users σ =
    match select_order_by_id (db_path σ.1) (init_world σ) with
    | (Ok rows, w) => (Ok (map model_validate rows), (init_self σ, w))
    | (Raise e, w) => (Raise e, (init_self σ, w))
    end.
Proof.
  destruct σ as [[path []] w]; unfold list_users, init_world; simpl;
    unfold mbind, M_bind, session; simpl;
    by destruct (select_order_by_id _ _) as [[r|e] w'].
Qed.

Lemma sound_new path w : sound (new path, w).
Proof. by intros ?. Qed.

Lemma init_world_files_present σ rows :
  files σ.2 !! db_path σ.1 = Some rows → files (init_world σ) = files σ.2.
Proof.
  intros Hrows. unfold init_world, create_all.
  destruct (_initialized σ.1); [done|]. simpl. by rewrite Hrows.
Qed.

Lemma init_world_rows σ :
  sound σ → files (init_world σ) !! db_path σ.1 = Some (stored_rows σ).
Proof.
  unfold sound, init_world, stored_rows, create_all. intros Hs.
  destruct (_initialized σ.1).
  - by destruct Hs as [rows ->].
  - simpl. destruct (files σ.2 !! db_path σ.1) as [rows|] eqn:Hrows; simpl.
    + done.
    + by rewrite lookup_insert_eq.
Qed.


Lemma init_world_environ σ : environ (init_world σ) = environ σ.2.
Proof. unfold init_world. by destruct (_initialized σ.1). Qed.

(** *** What each operation answers and leaves behind *)

Section sound_instance.
Context (σ : t * World) (Hsound : sound σ).

Lemma create_user_result now username email :
  (create_user now username email σ).1 =
    if decide (username ∈ map UserModel.username (stored_rows σ))
    then Raise IntegrityError
    else Ok (User.mk (next_rowid (stored_rows σ)) username email now).
Proof.
  rewrite create_user_unfold. unfold insert_user.
  rewrite (init_world_rows σ Hsound). by case_decide.
Qed.

Lemma create_user_rows now username email :
  stored_rows (create_user now username email σ).2 =
    if decide (username ∈ map UserModel.username (stored_rows σ))
    then stored_rows σ
    else stored_rows σ ++
           [UserModel.mk (next_rowid (stored_rows σ)) username email now].
Proof.
  rewrite create_user_unfold. unfold insert_user.
  rewrite (init_world_rows σ Hsound).
  case_decide; unfold stored_rows at 1; simpl.
  - by rewrite (init_world_rows σ Hsound).
  - by rewrite lookup_insert_eq.
Qed.

Lemma get_user_result user_id :
  (get_user user_id σ).1 =
    match scalar_one_or_none
            (filter (λ r, UserModel.id r = user_id) (stored_rows σ)) with
    | Ok (Some r) => Ok (Some (model_validate r))
    | Ok None => Ok None
    | Raise e => Raise e
    end.
Proof.
  rewrite get_user_unfold. unfold select_where_id.
  rewrite (init_world_rows σ Hsound).
  by destruct (scalar_one_or_none _) as [[r|]|e].
Qed.

Lemma get_user_rows user_id :
  stored_rows (get_user user_id σ).2 = stored_rows σ.
Proof.
  rewrite get_user_unfold. unfold select_where_id.
  rewrite (init_world_rows σ Hsound).
  destruct (scalar_one_or_none _) as [[r|]|e]; unfold stored_rows at 1; simpl;
    by rewrite (init_world_rows σ Hsound).
Qed.

Lemma list_users_result :
  (list_users σ).1 =
    Ok (map model_validate (order_by_id (stored_rows σ))).
Proof.
  rewrite list_users_unfold. unfold select_order_by_id.
  by rewrite (init_world_rows σ Hsound).
Qed.

Lemma list_users_rows : stored_rows (list_users σ).2 = stored_rows σ.
Proof.
  rewrite list_users_unfold. unfold select_order_by_id.
  rewrite (init_world_rows σ Hsound). unfold stored_rows at 1; simpl.
  by rewrite (init_world_rows σ Hsound).
Qed.
End sound_instance.

Lemma call_self (o : op) σ : (call o σ).2.1 = init_self σ.
Proof.
  destruct o as [now username email | user_id |]; simpl.
  - rewrite create_user_unfold.
    by destruct (insert_user _ _ _ _ _) as [[r|e] w'].
  - rewrite get_user_unfold.
    destruct (select_where_id _ _ _) as [[rows|e] w']; [|done].
    by destruct (scalar_one_or_none rows) as [[r|]|e].
  - rewrite list_users_unfold.
    by destruct (select_order_by_id _ _) as [[rows|e] w'].
Qed.


Lemma call_rows_present (o : op) σ :
  sound σ → is_Some (files (call o σ).2.2 !! db_path σ.1).
Proof.
  intros Hs. pose proof (init_world_rows σ Hs) as Hrows.
  destruct o as [now username email | user_id |]; simpl.
  - rewrite create_user_unfold. unfold insert_user. rewrite Hrows.
    case_decide; simpl; [by rewrite Hrows|]. by rewrite lookup_insert_eq.
  - rewrite get_user_unfold. unfold select_where_id. rewrite Hrows.
    destruct (scalar_one_or_none _) as [[r|]|e]; simpl; by rewrite Hrows.
  - rewrite list_users_unfold. unfold select_order_by_id. rewrite Hrows.
    simpl. by rewrite Hrows.
Qed.

Lemma sound_call (o : op) σ : sound σ → sound (call o σ).2.
Proof.
  intros Hs _. rewrite call_self. simpl. by apply call_rows_present.
Qed.

Lemma sound_calls (os : list op) σ : sound σ → sound (calls os σ).2.
Proof.
  revert σ. induction os as [|o os IH]; intros σ Hs; simpl; [done|].
  pose proof (sound_call o σ Hs) as Hs'.
  destruct (call o σ) as [a σ']. specialize (IH σ' Hs').
  by destruct (calls os σ') as [as_ σ''].
Qed.

(** *** A created record stays the one row under its key *)

Lemma holds_new rows username email now :
  holds (rows ++ [UserModel.mk (next_rowid rows) username email now])
        (User.mk (next_rowid rows) username email now).
Proof.
  exists (UserModel.mk (next_rowid rows) username email now).
  split; [|done]. rewrite filter_app. simpl.
  rewrite filter_id_absent.
  - by rewrite filter_cons_True by done.
  - intros (r & Heq & Hin)%list_elem_of_fmap.
    apply next_rowid_gt in Hin. lia.
Qed.

Lemma holds_snoc rows u username email now :
  holds rows u →
  holds (rows ++ [UserModel.mk (next_rowid rows) username email now]) u.
Proof.
  intros (r & Hf & Hu). exists r. split; [|done].
  rewrite filter_app, Hf, filter_cons_False; [done|]. simpl. intros Heq.
  assert (r ∈ filter (λ r', UserModel.id r' = User.id u) rows) as Hin
    by (rewrite Hf; apply list_elem_of_here).
  apply list_elem_of_filter in Hin as [Hid Hin].
  apply next_rowid_gt in Hin. lia.
Qed.

Lemma holds_call (o : op) σ u :
  sound σ → holds (stored_rows σ) u → holds (stored_rows (call o σ).2) u.
Proof.
  intros Hs Hu. rewrite call_snd.
  destruct o as [now username email | user_id |]; simpl.
  - rewrite create_user_rows by done. case_decide; [done|].
    by apply holds_snoc.
  - by rewrite get_user_rows.
  - by rewrite list_users_rows.
Qed.

Lemma holds_calls (os : list op) σ u :
  sound σ → holds (stored_rows σ) u → holds (stored_rows (calls os σ).2) u.
Proof.
  revert σ. induction os as [|o os IH]; intros σ Hs Hu; [done|].
  rewrite calls_cons. simpl. auto using sound_call, holds_call.
Qed.

Lemma created_holds (os : list op) σ u :
  sound σ → u ∈ created (calls os σ).1 →
  holds (stored_rows (calls os σ).2) u.
Proof.
  revert σ. induction os as [|o os IH]; intros σ Hs.
  - by intros ?%elem_of_nil.
  - pose proof (sound_call o σ Hs) as Hs'.
    rewrite calls_cons. cbn [fst snd]. rewrite created_cons.
    intros [Hin|Hin]%elem_of_app; [| by apply IH].
    apply holds_calls; [done|]. revert Hin. rewrite call_fst, call_snd.
    destruct o as [now username email | user_id |]; simpl;
      try by intros ?%elem_of_nil.
    rewrite create_user_result, create_user_rows by done.
    case_decide; simpl; [by intros ?%elem_of_nil|].
    intros ->%list_elem_of_singleton. apply holds_new.
Qed.

Lemma holds_get σ u :
  sound σ → holds (stored_rows σ) u →
  (get_user (User.id u) σ).1 = Ok (Some u).
Proof.
  intros Hs (r & Hf & Hu). rewrite get_user_result by done.
  rewrite Hf. simpl. by rewrite Hu.
Qed.

End SQLiteFacts.

(** ** Letter case *)

Lemma all_ascii_complete (c : ascii) : c ∈ all_ascii.
Proof.
  apply list_elem_of_In.
  destruct c as [[] [] [] [] [] [] [] []]; vm_compute; tauto.
Qed.

(** A character lower-cases to the lower-case ASCII letter [d] exactly when
    it is [d] or its capital. *)
Lemma lower_char_letter (d c : ascii) :
  is_ascii_lower d = true →
  Ascii.eqb (lower_char c) d = letter_any_case d c.
Proof.
  assert (forallb (λ d, forallb (λ c,
            implb (is_ascii_lower d)
                  (Bool.eqb (Ascii.eqb (lower_char c) d) (letter_any_case d c)))
            all_ascii) all_ascii = true) as Hall by (vm_compute; reflexivity).
  intros Hd. rewrite forallb_forall in Hall.
  specialize (Hall d (proj1 (list_elem_of_In _ _) (all_ascii_complete d))).
  rewrite forallb_forall in Hall.
  specialize (Hall c (proj1 (list_elem_of_In _ _) (all_ascii_complete c))).
  rewrite Hd in Hall. simpl in Hall. by apply Bool.eqb_prop.
Qed.

Lemma lower_any_case (pat s : string) :
  lower_word pat = true → (lower s = pat ↔ any_case pat s = true).
Proof.
  revert s. induction pat as [|d pat IH]; intros [|c s]; simpl; try done.
  intros [Hd Hpat]%andb_prop. specialize (IH s Hpat).
  rewrite andb_true_iff, <- IH, <- (lower_char_letter d c Hd), Ascii.eqb_eq.
  split; [by intros [= -> ->] | by intros [-> ->]].
Qed.

(** ** Substrings *)

Lemma starts_with_app (p s : string) : starts_with p (p +:+ s) = true.
Proof. induction p as [|c p IH]; simpl; [done|]. by rewrite Ascii.eqb_refl. Qed.

Lemma contains_app_r (p a b : string) :
  contains p b = true → contains p (a +:+ b) = true.
Proof.
  intros Hb. induction a as [|c a IH]; simpl; [done|].
  rewrite IH. apply orb_true_r.
Qed.

Lemma contains_prefix (p b : string) : contains p (p +:+ b) = true.
Proof.
  destruct (p +:+ b) eqn:Heq; simpl; rewrite <- Heq, starts_with_app; done.
Qed.

(** ** The factory *)

Lemma create_user_repository_unfold (s : string) (w : World) :
  create_user_repository (Some s) w =
    if decide (lower s = "memory") then
      (Ok (Memory InMemoryUserRepository.new), w)
    else if decide (lower s = "sqlite") then
      (Ok (SQLite (SQLiteUserRepository.new "users.db")), w)
    else
      (Raise (ValueError ("Unknown repository type: " +:+ lower s +:+
                          ". Use 'memory' or 'sqlite'")), w).
Proof. done. Qed.

(** ** The schema flag *)


(** ** The in-memory backend, many callers *)

Module InterleavedFacts.
Import Interleaved InterleavedInv.

Lemma insert_middle {A} (l1 l2 : list A) (x y : A) :
  <[length l1 := y]> (l1 ++ x :: l2) = l1 ++ y :: l2.
Proof. induction l1 as [|a l1 IH]; simpl; [done | by rewrite IH]. Qed.

(** The step of the call in the middle of [l1 ++ c :: l2]. *)
Lemma step_middle (s : state) (l1 l2 : list call) (c : call) :
  calls s = l1 ++ c :: l2 →
  step (length l1) s =
    match at_ c with
    | AwaitLock =>
        if _lock s then s
        else mkState (_users s) (_next_id s) true (l1 ++ move c BuildUser :: l2)
    | BuildUser =>
        mkState (_users s) (_next_id s) (_lock s)
          (l1 ++ move c (StoreUser (User.mk (_next_id s) (username c)
                                      (email c) (now c))) :: l2)
    | StoreUser user =>
        mkState (dict_set (User.id user) user (_users s)) (_next_id s) (_lock s)
          (l1 ++ move c (LoadNextId user) :: l2)
    | LoadNextId user =>
        mkState (_users s) (_next_id s) (_lock s)
          (l1 ++ move c (StoreNextId user (_next_id s)) :: l2)
    | StoreNextId user v =>
        mkState (_users s) (v + 1) (_lock s)
          (l1 ++ move c (ReleaseLock user) :: l2)
    | ReleaseLock user =>
        mkState (_users s) (_next_id s) false
          (l1 ++ move c (Returned user) :: l2)
    | Returned _ => s
    end.
Proof.
  intros Hcalls. unfold step. rewrite Hcalls, list_lookup_middle by done.
  destruct (at_ c); try destruct (_lock s); by rewrite ?insert_middle.
Qed.

Lemma omap_stored_middle (l1 l2 : list call) (c : call) :
  omap stored (l1 ++ c :: l2) =
    omap stored l1 ++ option_list (stored c) ++ omap stored l2.
Proof. rewrite omap_app. simpl. by destruct (stored c). Qed.

(** With every other call idle, the call that is not idle is the holder. *)
Lemma holder_unique (l1 l2 l1' l2' : list call) (c h : call) :
  l1 ++ c :: l2 = l1' ++ h :: l2' →
  Forall idle l1' → Forall idle l2' → ¬ idle c →
  l1 = l1' ∧ c = h ∧ l2 = l2'.
Proof.
  revert l1'. induction l1 as [|a l1 IH]; intros [|a' l1']; simpl;
    intros [= ? Heq] Hl1' Hl2' Hc.
  - done.
  - subst. by apply Forall_cons in Hl1' as [? _].
  - subst. exfalso. apply Hc. eapply Forall_forall; [exact Hl2'|].
    apply elem_of_app. right. apply list_elem_of_here.
  - subst. apply Forall_cons in Hl1' as [_ Hl1'].
    destruct (IH l1' Heq Hl1' Hl2' Hc) as (-> & -> & ->). done.
Qed.

Lemma inv_launch (args : list (datetime * string * string)) : inv (launch args).
Proof.
  split; simpl; [done | done | |].
  - induction args as [|a args IH]; simpl; [done | exact IH].
  - split; [|done]. apply Forall_forall. intros c Hc.
    apply list_elem_of_fmap in Hc as (a & -> & _). exact I.
Qed.

Lemma holder_is (s : state) (l1 l2 : list call) (c : call) :
  inv s → calls s = l1 ++ c :: l2 → ¬ idle c →
  _lock s = true ∧ Forall idle l1 ∧ Forall idle l2 ∧ holder_ok s (at_ c).
Proof.
  intros [_ _ _ Hlock] Hcalls Hc. destruct (_lock s).
  - destruct Hlock as (l1' & h & l2' & Hcalls' & Hl1' & Hl2' & Hok).
    rewrite Hcalls in Hcalls'.
    by destruct (holder_unique _ _ _ _ _ _ Hcalls' Hl1' Hl2' Hc) as (-> & -> & ->).
  - destruct Hlock as [Hidle _]. rewrite Hcalls in Hidle.
    apply Forall_app in Hidle as [_ [Hidle _]%Forall_cons]. done.
Qed.

Lemma stored_unfold (c : call) :
  stored c =
    match at_ c with
    | LoadNextId u | StoreNextId u _ | ReleaseLock u | Returned u => Some u
    | _ => None
    end.
Proof. done. Qed.

(** Every step keeps the invariant. *)
Lemma inv_step (i : nat) (s : state) : inv s → inv (step i s).
Proof.
  intros Hinv.
  destruct (calls s !! i) as [c|] eqn:Hi; [| by unfold step; rewrite Hi].
  apply list_elem_of_split_length in Hi as (l1 & l2 & Hcalls & ->).
  rewrite (step_middle s l1 l2 c Hcalls).
  pose proof (holder_is s l1 l2 c Hinv Hcalls) as Hholder.
  pose proof Hinv as [Hkeys Hids Hstored Hlock].
  rewrite Hcalls, omap_stored_middle in Hstored.
  destruct (at_ c) as [| | u | u | u v | u | u] eqn:Hat.
  - (* the lock is taken if it is free *)
    destruct (_lock s) eqn:Hl; [done|].
    destruct Hlock as [Hidle Hnext]. rewrite Hcalls in Hidle.
    apply Forall_app in Hidle as [Hl1 [_ Hl2]%Forall_cons].
    split; simpl; [done | done | |].
    + rewrite omap_stored_middle. by rewrite (stored_unfold c), Hat in Hstored.
    + by exists l1, (move c BuildUser), l2.
  - (* the counter is read into the new user *)
    destruct Hholder as (Hl & Hl1 & Hl2 & Hok); [unfold idle; rewrite Hat; tauto|]. simpl in Hok.
    split; simpl; [done | done | |].
    + rewrite omap_stored_middle. by rewrite (stored_unfold c), Hat in Hstored.
    + rewrite Hl. eexists l1, _, l2. split_and!; done.
  - (* the user is put under its id, a new key *)
    destruct Hholder as (Hl & Hl1 & Hl2 & Hok); [unfold idle; rewrite Hat; tauto|].
    destruct Hok as [Hnext Hid].
    assert (dict_set (User.id u) u (_users s) = _users s ++ [(User.id u, u)])
      as Hset.
    { apply dict_set_fresh. rewrite Hkeys, elem_of_seqZ. lia. }
    split; simpl; rewrite ?Hset, ?map_app, ?length_app; simpl.
    + rewrite Hkeys, Nat2Z.inj_add, seqZ_app by lia. f_equal.
      change (Z.of_nat 1) with 1. rewrite (seqZ_cons _ 1), seqZ_nil by lia.
      f_equal. lia.
    + by rewrite Hids.
    + rewrite omap_stored_middle. rewrite (stored_unfold c), Hat in Hstored.
      simpl in *. rewrite Hstored.
      by rewrite <- !Permutation_middle, app_nil_r.
    + rewrite Hl. eexists l1, _, l2. split_and!; try done. simpl.
      rewrite length_app. simpl. lia.
  - (* the counter is read *)
    destruct Hholder as (Hl & Hl1 & Hl2 & Hok); [unfold idle; rewrite Hat; tauto|]. simpl in Hok.
    split; simpl; [done | done | |].
    + rewrite omap_stored_middle. by rewrite (stored_unfold c), Hat in Hstored.
    + rewrite Hl. eexists l1, _, l2. split_and!; done.
  - (* the counter is written *)
    destruct Hholder as (Hl & Hl1 & Hl2 & Hok); [unfold idle; rewrite Hat; tauto|].
    destruct Hok as [Hnext ->].
    split; simpl; [done | done | |].
    + rewrite omap_stored_middle. by rewrite (stored_unfold c), Hat in Hstored.
    + rewrite Hl. eexists l1, _, l2. split_and!; try done. simpl. lia.
  - (* the lock is released *)
    destruct Hholder as (Hl & Hl1 & Hl2 & Hok); [unfold idle; rewrite Hat; tauto|]. simpl in Hok.
    split; simpl; [done | done | |].
    + rewrite omap_stored_middle. by rewrite (stored_unfold c), Hat in Hstored.
    + split; [|done]. apply Forall_app. split; [done|].
      by apply Forall_cons.
  - (* a call that has returned stays *)
    done.
Qed.

Lemma inv_run (sched : list nat) (s : state) : inv s → inv (run sched s).
Proof.
  revert s. induction sched as [|i sched IH]; intros s Hinv; simpl; [done|].
  by apply IH, inv_step.
Qed.



(** A call that runs alone does what the one-caller [create_user] does. *)
Lemma lone_call_is_create_user (self : InMemoryUserRepository.t)
    (now : datetime) (username email : string) :
  run [0; 0; 0; 0; 0; 0]%nat
      (mkState (InMemoryUserRepository._users self)
               (InMemoryUserRepository._next_id self) false
               [mkCall now username email AwaitLock]) =
    let '(user, self') :=
      InMemoryUserRepository.create_user now username email self in
    mkState (InMemoryUserRepository._users self')
            (InMemoryUserRepository._next_id self') false
            [mkCall now username email (Returned user)].
Proof. done. Qed.

(** *** Every launch can be run to the end *)





(** *** What has been returned *)

Lemma returned_sublist (l : list call) :
  omap returned l `sublist_of` omap stored l.
Proof.
  induction l as [|a l IH]; [done|].
  assert (returned a = None ∨ ∃ u, returned a = Some u ∧ stored a = Some u)
    as [Hr | (u & Hr & Hs)].
  { unfold returned. rewrite stored_unfold. destruct (at_ a); eauto. }
  - simpl. rewrite Hr. destruct (stored a); [by constructor | exact IH].
  - simpl. rewrite Hr, Hs. by constructor.
Qed.


Lemma length_calls_step (i : nat) (s : state) :
  length (calls (step i s)) = length (calls s).
Proof.
  unfold step. destruct (calls s !! i) as [c|]; [|done].
  destruct (at_ c); try destruct (_lock s); simpl; by rewrite ?length_insert.
Qed.

Lemma length_calls_run (sched : list nat) (s : state) :
  length (calls (run sched s)) = length (calls s).
Proof.
  revert s. induction sched as [|i sched IH]; intros s; [done|].
  change (run (i :: sched) s) with (run sched (step i s)).
  by rewrite IH, length_calls_step.
Qed.

End InterleavedFacts.

(** * The claims *)

(** C1. On one instance, after any sequence of operations, [get_user] with
    the id of a user that one of the [create_user] calls returned answers
    exactly that user (same id, username, email and created_at). This holds
    of the in-memory backend from every state, and of the persistent backend
    for an instance constructed on any database. *)
Theorem get_user_returns_created_record :
  (∀ (os : list op) (s : InMemoryUserRepository.t) (u : User.t),
     u ∈ created (calls os s).1 →
     (get_user (User.id u) (calls os s).2).1 = Ok (Some u)) ∧
  (∀ (path : string) (w : World) (os : list op) (u : User.t),
     u ∈ created (calls os (SQLiteUserRepository.new path, w)).1 →
     (get_user (User.id u) (calls os (SQLiteUserRepository.new path, w)).2).1
       = Ok (Some u)).
Proof.
  split.
  - intros os s u Hu. simpl. by rewrite (InMemoryFacts.get_created os s u Hu).
  - intros path w os u Hu.
    pose proof (SQLiteFacts.sound_new path w) as Hs.
    apply SQLiteFacts.holds_get.
    + by apply SQLiteFacts.sound_calls.
    + by apply SQLiteFacts.created_holds.
Qed.

Lemma get_user_returns_created_record_witness :
  (get_user 2 (calls example_ops InMemoryUserRepository.new).2).1
    = Ok (Some (User.mk 2 "bob" "bob@x.com" 200)) ∧
  (get_user 2 (calls example_ops
                 (SQLiteUserRepository.new "users.db", empty_world)).2).1
    = Ok (Some (User.mk 2 "bob" "bob@x.com" 200)).
Proof.
  split.
  - apply (proj1 get_user_returns_created_record example_ops
             InMemoryUserRepository.new (User.mk 2 "bob" "bob@x.com" 200)).
    apply (bool_decide_unpack _). vm_compute. reflexivity.
  - apply (proj2 get_user_returns_created_record "users.db" empty_world
             example_ops (User.mk 2 "bob" "bob@x.com" 200)).
    apply (bool_decide_unpack _). vm_compute. reflexivity.
Defined.

(** C2. On a fresh in-memory instance, the ids of the users that the
    [create_user] calls of any sequence of operations return are 1, 2, ...
    in call order: one per call, starting at 1, strictly increasing and
    pairwise distinct. *)
Theorem in_memory_ids_count_from_one (os : list op) :
  let users := created (calls os InMemoryUserRepository.new).1 in
  length users = length (filter is_create os) ∧
  map User.id users = seqZ 1 (Z.of_nat (length users)) ∧
  StronglySorted Z.lt (map User.id users) ∧
  NoDup (map User.id users).
Proof.
  intros users.
  destruct (InMemoryFacts.created_ids os InMemoryUserRepository.new) as [Hids _].
  fold users in Hids. change (InMemoryUserRepository._next_id _) with 1 in Hids.
  assert (length users = length (filter is_create os)) as Hlen.
  { rewrite <- (length_map User.id users), Hids, length_seqZ. lia. }
  rewrite Hlen, Hids. split_and!; [done | done | apply seqZ_lt_sorted | apply NoDup_seqZ].
Qed.

(** C3. After any sequence of operations on a fresh instance, [list_users]
    answers all stored users in ascending order of id. For the in-memory
    backend the answer is the values of the dict, which are the created
    users in call order; for the persistent backend, on any database and
    whatever the storage order of its rows, it is a rearrangement of the
    stored rows. With nothing stored the answer is the empty list. *)
Theorem list_users_sorted_by_id :
  (∀ os : list op,
     let s := (calls os InMemoryUserRepository.new).2 in
     ∃ users,
       (list_users s).1 = Ok users ∧
       users = dict_values (InMemoryUserRepository._users s) ∧
       users = created (calls os InMemoryUserRepository.new).1 ∧
       Sorted Z.le (map User.id users)) ∧
  (∀ (path : string) (w : World) (os : list op),
     let σ := (calls os (SQLiteUserRepository.new path, w)).2 in
     ∃ users,
       (list_users σ).1 = Ok users ∧
       users ≡ₚ map model_validate (stored_rows σ) ∧
       Sorted Z.le (map User.id users)) ∧
  (list_users InMemoryUserRepository.new).1 = Ok [] ∧
  (∀ path : string,
     (list_users (SQLiteUserRepository.new path, empty_world)).1 = Ok []).
Proof.
  split_and!.
  - intros os s. exists (dict_values (InMemoryUserRepository._users s)).
    pose proof (InMemoryFacts.inv_calls os _ InMemoryFacts.inv_new) as (Hk & Hi & _).
    pose proof (InMemoryFacts.users_after_calls os _ InMemoryFacts.inv_new) as Hc.
    fold s in Hk, Hi, Hc. split_and!; [done | done | done |].
    rewrite Hi, Hk. apply StronglySorted_lt_le, seqZ_lt_sorted.
  - intros path w os σ.
    assert (SQLiteInv.sound σ) as Hs
      by apply SQLiteFacts.sound_calls, SQLiteFacts.sound_new.
    exists (map model_validate (order_by_id (stored_rows σ))).
    split_and!.
    + by apply SQLiteFacts.list_users_result.
    + by rewrite order_by_id_perm.
    + rewrite map_map. apply order_by_id_sorted.
  - done.
  - intros path.
    etrans; [exact (SQLiteFacts.list_users_result _
                      (SQLiteFacts.sound_new path empty_world))|].
    unfold stored_rows. simpl. by rewrite lookup_empty.
Qed.

(** The part of C4 that the code keeps. [get_user] with an id that is not
    stored answers [None] and does not raise: on the in-memory backend for
    every id in every state; on the persistent backend for every id within
    the range of the engine's INTEGER, after any sequence of operations on
    an instance constructed on any database. For an id outside that range
    the persistent [get_user] does not get as far as the query (the driver
    raises [OverflowError]), where the in-memory [get_user] answers
    [None]. *)
Theorem get_user_absent_is_none :
  (∀ (s : InMemoryUserRepository.t) (user_id : Z),
     user_id ∉ map fst (InMemoryUserRepository._users s) →
     get_user user_id s = (Ok None, s)) ∧
  (∀ (path : string) (w : World) (os : list op) (user_id : Z),
     let σ := (calls os (SQLiteUserRepository.new path, w)).2 in
     in_int64 user_id →
     user_id ∉ map UserModel.id (stored_rows σ) →
     (get_user user_id σ).1 = Ok None).
Proof.
  split.
  - intros s user_id Hnin. simpl. by rewrite dict_get_None.
  - intros path w os user_id σ _ Hnin.
    assert (SQLiteInv.sound σ) as Hs
      by apply SQLiteFacts.sound_calls, SQLiteFacts.sound_new.
    etrans; [exact (SQLiteFacts.get_user_result σ Hs user_id)|].
    by rewrite filter_id_absent.
Qed.

Lemma get_user_absent_is_none_witness :
  get_user 999 (calls example_ops InMemoryUserRepository.new).2
    = (Ok None, (calls example_ops InMemoryUserRepository.new).2) ∧
  (get_user 999 (calls example_ops
                   (SQLiteUserRepository.new "users.db", empty_world)).2).1
    = Ok None.
Proof.
  split.
  - apply (proj1 get_user_absent_is_none).
    apply (bool_decide_unpack _). vm_compute. reflexivity.
  - apply (proj2 get_user_absent_is_none "users.db" empty_world example_ops 999).
    + unfold in_int64. lia.
    + apply (bool_decide_unpack _). vm_compute. reflexivity.
Defined.

(** C5, as stated, fails: the selector is lower-cased before it is put
    into the message, so for [Redis] the message reads [redis] and the
    given value is not in it. *)
Lemma factory_message_counterexample :
  any_case "memory" "Redis" = false ∧ any_case "sqlite" "Redis" = false ∧
  (create_user_repository (Some "Redis") empty_world).1 =
    Raise (ValueError "Unknown repository type: redis. Use 'memory' or 'sqlite'") ∧
  contains "Redis" "Unknown repository type: redis. Use 'memory' or 'sqlite'"
    = false.
Proof. by vm_compute. Qed.

(** C5, amended. The factory matches the selector without regard to letter
    case: [memory] in any case gives a fresh in-memory instance, [sqlite] in
    any case a persistent instance on [users.db], and every other string
    raises a [ValueError] whose message names the lower-cased selector and
    the accepted values [memory] and [sqlite]. In each case the world is
    returned as it was. *)
Theorem factory_selects_backend (s : string) (w : World) :
  (any_case "memory" s = true →
   create_user_repository (Some s) w =
     (Ok (Memory InMemoryUserRepository.new), w)) ∧
  (any_case "sqlite" s = true →
   create_user_repository (Some s) w =
     (Ok (SQLite (SQLiteUserRepository.new "users.db")), w)) ∧
  (any_case "memory" s = false → any_case "sqlite" s = false →
   ∃ msg,
     create_user_repository (Some s) w = (Raise (ValueError msg), w) ∧
     msg = "Unknown repository type: " +:+ lower s +:+
             ". Use 'memory' or 'sqlite'" ∧
     contains (lower s) msg = true ∧
     contains "'memory'" msg = true ∧
     contains "'sqlite'" msg = true).
Proof.
  rewrite create_user_repository_unfold.
  pose proof (lower_any_case "memory" s eq_refl) as Hm.
  pose proof (lower_any_case "sqlite" s eq_refl) as Hs.
  split_and!.
  - intros Hc. by rewrite decide_True by (by apply Hm).
  - intros Hc. rewrite decide_False, decide_True; [done | by apply Hs |].
    apply Hs in Hc. by rewrite Hc.
  - intros Hnm Hns.
    rewrite !decide_False.
    + eexists. split_and!; [done | done | | |].
      * apply contains_app_r, contains_prefix.
      * by do 2 apply contains_app_r.
      * by do 2 apply contains_app_r.
    + intros Heq%Hs. congruence.
    + intros Heq%Hm. congruence.
Qed.

Lemma factory_selects_backend_witness :
  create_user_repository (Some "MeMoRy") empty_world =
    (Ok (Memory InMemoryUserRepository.new), empty_world) ∧
  create_user_repository (Some "SQLite") empty_world =
    (Ok (SQLite (SQLiteUserRepository.new "users.db")), empty_world) ∧
  ∃ msg,
    create_user_repository (Some "Redis") empty_world
      = (Raise (ValueError msg), empty_world) ∧
    msg = "Unknown repository type: " +:+ lower "Redis" +:+
            ". Use 'memory' or 'sqlite'" ∧
    contains (lower "Redis") msg = true ∧
    contains "'memory'" msg = true ∧
    contains "'sqlite'" msg = true.
Proof.
  split_and!.
  - apply (proj1 (factory_selects_backend "MeMoRy" empty_world)). reflexivity.
  - apply (proj1 (proj2 (factory_selects_backend "SQLite" empty_world))).
    reflexivity.
  - apply (proj2 (proj2 (factory_selects_backend "Redis" empty_world)));
      reflexivity.
Defined.

(** C6. On the in-memory backend no operation raises, in any state and for
    all strings: [create_user] answers a user that carries the given
    username and email and that [get_user] then finds, also when the
    username is already stored; after any history the listing grows by
    exactly that user. The persistent backend refuses a stored username:
    its [create_user] raises the engine's integrity error and stores
    nothing. *)
Theorem in_memory_never_fails_and_allows_duplicate_usernames :
  (∀ (s : InMemoryUserRepository.t) (now : datetime) (username email : string),
     ∃ u s',
       create_user now username email s = (Ok u, s') ∧
       User.username u = username ∧ User.email u = email ∧
       (get_user (User.id u) s').1 = Ok (Some u)) ∧
  (∀ (s : InMemoryUserRepository.t) (user_id : Z),
     ∃ r, get_user user_id s = (Ok r, s)) ∧
  (∀ s : InMemoryUserRepository.t, ∃ users, list_users s = (Ok users, s)) ∧
  (∀ (os : list op) (now : datetime) (username email : string),
     let s := (calls os InMemoryUserRepository.new).2 in
     ∃ u s' users,
       create_user now username email s = (Ok u, s') ∧
       (list_users s).1 = Ok users ∧
       (list_users s').1 = Ok (users ++ [u])) ∧
  (∀ (path : string) (w : World) (os : list op)
     (now : datetime) (username email : string),
     let σ := (calls os (SQLiteUserRepository.new path, w)).2 in
     username ∈ map UserModel.username (stored_rows σ) →
     (create_user now username email σ).1 = Raise IntegrityError ∧
     stored_rows (create_user now username email σ).2 = stored_rows σ).
Proof.
  split_and!.
  - intros s now username email. eexists _, _. split_and!; try done.
    simpl. by rewrite dict_get_set_eq.
  - intros s user_id. by eexists.
  - intros s. by eexists.
  - intros os now username email s. eexists _, _, _. split_and!; try done.
    pose proof (InMemoryFacts.inv_calls os _ InMemoryFacts.inv_new) as Hinv.
    fold s in Hinv. simpl. f_equal.
    pose proof (InMemoryFacts.create_user_appends now username email s Hinv) as Happ.
    simpl in Happ. unfold dict_values. by rewrite Happ, map_app.
  - intros path w os now username email σ Hin.
    assert (SQLiteInv.sound σ) as Hs
      by apply SQLiteFacts.sound_calls, SQLiteFacts.sound_new.
    split.
    + etrans; [exact (SQLiteFacts.create_user_result σ Hs now username email)|].
      by rewrite decide_True.
    + etrans; [exact (SQLiteFacts.create_user_rows σ Hs now username email)|].
      by rewrite decide_True.
Qed.

Lemma in_memory_never_fails_and_allows_duplicate_usernames_witness :
  (create_user 400 "alice" "a2@x.com"
     (calls example_ops (SQLiteUserRepository.new "users.db", empty_world)).2).1
    = Raise IntegrityError ∧
  (create_user 400 "alice" "a2@x.com"
     (calls example_ops InMemoryUserRepository.new).2).1
    = Ok (User.mk 4 "alice" "a2@x.com" 400).
Proof.
  split.
  - apply (proj2 (proj2 (proj2 (proj2
             in_memory_never_fails_and_allows_duplicate_usernames)))
             "users.db" empty_world example_ops 400 "alice" "a2@x.com").
    apply (bool_decide_unpack _). vm_compute. reflexivity.
  - reflexivity.
Defined.


(** C8. On the in-memory backend [get_user] and [list_users] return the
    instance as they found it, mapping and counter alike, whereas
    [create_user] always changes it. *)
Theorem in_memory_reads_leave_state_unchanged (s : InMemoryUserRepository.t) :
  (∀ user_id : Z, (InMemoryUserRepository.get_user user_id s).2 = s) ∧
  (InMemoryUserRepository.list_users s).2 = s ∧
  (∀ user_id : Z, (get_user user_id s).2 = s) ∧
  (list_users s).2 = s ∧
  (∀ (now : datetime) (username email : string),
     InMemoryUserRepository._next_id
       (InMemoryUserRepository.create_user now username email s).2
       = InMemoryUserRepository._next_id s + 1 ∧
     (InMemoryUserRepository.create_user now username email s).2 ≠ s).
Proof.
  split_and!; try done.
  intros now username email. split; [done|].
  intros Heq. apply (f_equal InMemoryUserRepository._next_id) in Heq.
  simpl in Heq. lia.
Qed.



(** C10. Called without a selector, the factory takes the value of the
    environment variable [REPO_TYPE], and [memory] when that variable is
    not set: then it constructs the in-memory backend. When the variable
    is set, its value decides as a given selector would: [memory] in any
    letter case gives the in-memory backend, [sqlite] in any letter case
    the persistent one, and any other value raises the [ValueError]. A
    variable that only the [.env] file defines counts as set, because
    loading the module has put it into the environment. *)
Theorem factory_reads_repo_type (w : World) :
  create_user_repository None w =
    create_user_repository (Some (getenv "REPO_TYPE" "memory" w)) w ∧
  (∀ v : string,
     environ w !! "REPO_TYPE" = Some v →
     create_user_repository None w = create_user_repository (Some v) w) ∧
  (environ w !! "REPO_TYPE" = None →
   create_user_repository None w =
     (Ok (Memory InMemoryUserRepository.new), w)) ∧
  (∀ v : string,
     environ w !! "REPO_TYPE" = Some v → any_case "memory" v = true →
     create_user_repository None w =
       (Ok (Memory InMemoryUserRepository.new), w)) ∧
  (∀ v : string,
     environ w !! "REPO_TYPE" = Some v → any_case "sqlite" v = true →
     create_user_repository None w =
       (Ok (SQLite (SQLiteUserRepository.new "users.db")), w)) ∧
  (∀ v : string,
     environ w !! "REPO_TYPE" = Some v →
     any_case "memory" v = false → any_case "sqlite" v = false →
     create_user_repository None w =
       (Raise (ValueError ("Unknown repository type: " +:+ lower v +:+
                           ". Use 'memory' or 'sqlite'")), w)) ∧
  (∀ (dotenv : gmap string string) (v : string),
     environ w !! "REPO_TYPE" = None → dotenv !! "REPO_TYPE" = Some v →
     create_user_repository None (load_dotenv dotenv w) =
       create_user_repository (Some v) (load_dotenv dotenv w)).
Proof.
  assert (∀ v : string,
            environ w !! "REPO_TYPE" = Some v →
            create_user_repository None w = create_user_repository (Some v) w)
    as Hset.
  { intros v Hv. unfold create_user_repository, getenv. by rewrite Hv. }
  split_and!; [done | done | | | | |].
  - intros Hv. unfold create_user_repository, getenv. by rewrite Hv.
  - intros v Hv Hc. rewrite (Hset v Hv), create_user_repository_unfold.
    by rewrite decide_True by (by apply (lower_any_case "memory")).
  - intros v Hv Hc. rewrite (Hset v Hv), create_user_repository_unfold.
    apply (lower_any_case "sqlite" v eq_refl) in Hc.
    rewrite decide_False, decide_True; [done | done |]. by rewrite Hc.
  - intros v Hv Hm Hs. rewrite (Hset v Hv), create_user_repository_unfold.
    rewrite !decide_False; [done | |].
    + intros Heq%(lower_any_case "sqlite" v eq_refl). congruence.
    + intros Heq%(lower_any_case "memory" v eq_refl). congruence.
  - intros dotenv v Hnone Hv. unfold create_user_repository at 1, getenv.
    simpl. by rewrite (lookup_union_r _ _ _ Hnone), Hv.
Qed.

Lemma factory_reads_repo_type_witness :
  create_user_repository None (mkWorld {["REPO_TYPE" := "SQLite"]} ∅ []) =
    (Ok (SQLite (SQLiteUserRepository.new "users.db")),
     mkWorld {["REPO_TYPE" := "SQLite"]} ∅ []) ∧
  create_user_repository None (mkWorld {["REPO_TYPE" := "redis"]} ∅ []) =
    (Raise (ValueError ("Unknown repository type: " +:+ lower "redis" +:+
                        ". Use 'memory' or 'sqlite'")),
     mkWorld {["REPO_TYPE" := "redis"]} ∅ []) ∧
  create_user_repository None empty_world =
    (Ok (Memory InMemoryUserRepository.new), empty_world) ∧
  create_user_repository None
    (load_dotenv {["REPO_TYPE" := "sqlite"]} empty_world) =
    create_user_repository (Some "sqlite")
      (load_dotenv {["REPO_TYPE" := "sqlite"]} empty_world).
Proof.
  split_and!.
  - apply (proj1 (proj2 (proj2 (proj2 (proj2
             (factory_reads_repo_type
                (mkWorld {["REPO_TYPE" := "SQLite"]} ∅ []))))))
             "SQLite"); reflexivity.
  - apply (proj1 (proj2 (proj2 (proj2 (proj2 (proj2
             (factory_reads_repo_type
                (mkWorld {["REPO_TYPE" := "redis"]} ∅ [])))))))
             "redis"); reflexivity.
  - apply (proj1 (proj2 (proj2 (factory_reads_repo_type empty_world)))).
    reflexivity.
  - apply (proj2 (proj2 (proj2 (proj2 (proj2 (proj2
             (factory_reads_repo_type empty_world))))))
             {["REPO_TYPE" := "sqlite"]} "sqlite"); reflexivity.
Defined.

(** * Further properties *)

(** ** The persistent backend *)

Lemma calls_db_path (os : list op) (σ : SQLiteUserRepository.t * World) :
  SQLiteUserRepository.db_path (calls os σ).2.1 = SQLiteUserRepository.db_path σ.1.
Proof.
  revert σ. induction os as [|o os IH]; intros σ; [done|].
  rewrite calls_cons. cbn [fst snd]. by rewrite IH, SQLiteFacts.call_self.
Qed.

Lemma calls_app {R : Type} `{!UserRepository R} (os1 os2 : list op) (repo : R) :
  calls (os1 ++ os2) repo =
    ((calls os1 repo).1 ++ (calls os2 (calls os1 repo).2).1,
     (calls os2 (calls os1 repo).2).2).
Proof.
  revert repo. induction os1 as [|o os1 IH]; intros repo.
  - simpl. by destruct (calls os2 repo).
  - rewrite <- app_comm_cons, !calls_cons, IH. done.
Qed.

(** The rows after one operation. *)
Lemma call_rows (o : op) (σ : SQLiteUserRepository.t * World) :
  SQLiteInv.sound σ →
  stored_rows (call o σ).2 =
    match o with
    | CreateUser now username email =>
        if decide (username ∈ map UserModel.username (stored_rows σ))
        then stored_rows σ
        else stored_rows σ ++
               [UserModel.mk (next_rowid (stored_rows σ)) username email now]
    | _ => stored_rows σ
    end.
Proof.
  intros Hs. rewrite call_snd. destruct o as [now username email | user_id |].
  - by apply SQLiteFacts.create_user_rows.
  - by apply SQLiteFacts.get_user_rows.
  - by apply SQLiteFacts.list_users_rows.
Qed.

(** X1. What one persistent instance has stored, another instance
    constructed later on the same database file reads: it lists the same
    users, answers every [get_user] alike, and finds every user the first
    instance created. *)
Theorem persistent_data_survives_new_instance
    (path : string) (w : World) (os : list op) :
  let σ := (calls os (SQLiteUserRepository.new path, w)).2 in
  let reopened := (SQLiteUserRepository.new path, σ.2) in
  (list_users reopened).1 = (list_users σ).1 ∧
  (∀ user_id : Z, (get_user user_id reopened).1 = (get_user user_id σ).1) ∧
  (∀ u : User.t,
     u ∈ created (calls os (SQLiteUserRepository.new path, w)).1 →
     (get_user (User.id u) reopened).1 = Ok (Some u)).
Proof.
  intros σ reopened.
  assert (SQLiteInv.sound σ) as Hs
    by apply SQLiteFacts.sound_calls, SQLiteFacts.sound_new.
  pose proof (SQLiteFacts.sound_new path σ.2) as Hs'. fold reopened in Hs'.
  assert (stored_rows reopened = stored_rows σ) as Hrows.
  { unfold stored_rows, reopened, σ. simpl. by rewrite calls_db_path. }
  split_and!.
  - etrans; [exact (SQLiteFacts.list_users_result reopened Hs')|].
    symmetry. etrans; [exact (SQLiteFacts.list_users_result σ Hs)|].
    by rewrite Hrows.
  - intros user_id.
    etrans; [exact (SQLiteFacts.get_user_result reopened Hs' user_id)|].
    symmetry. etrans; [exact (SQLiteFacts.get_user_result σ Hs user_id)|].
    by rewrite Hrows.
  - intros u Hu. apply SQLiteFacts.holds_get; [done|]. rewrite Hrows.
    by apply SQLiteFacts.created_holds; [apply SQLiteFacts.sound_new|].
Qed.

Lemma persistent_data_survives_new_instance_witness :
  (get_user 2
     (SQLiteUserRepository.new "users.db",
      (calls example_ops (SQLiteUserRepository.new "users.db", empty_world)).2.2)).1
    = Ok (Some (User.mk 2 "bob" "bob@x.com" 200)).
Proof.
  apply (proj2 (proj2 (persistent_data_survives_new_instance
                         "users.db" empty_world example_ops))
           (User.mk 2 "bob" "bob@x.com" 200)).
  apply (bool_decide_unpack _). vm_compute. reflexivity.
Defined.

Lemma call_keys_unique (o : op) (σ : SQLiteUserRepository.t * World) :
  SQLiteInv.sound σ →
  NoDup (map UserModel.id (stored_rows σ)) →
  NoDup (map UserModel.id (stored_rows (call o σ).2)).
Proof.
  intros Hs Hnd. rewrite call_rows by done.
  destruct o as [now username email | user_id |]; try done.
  case_decide; [done|]. rewrite map_app. simpl.
  apply NoDup_app. split_and!; [done | | apply NoDup_singleton].
  intros k (r & Hk & Hin)%list_elem_of_fmap Hk'%list_elem_of_singleton.
  apply next_rowid_gt in Hin. lia.
Qed.

Lemma call_usernames_unique (o : op) (σ : SQLiteUserRepository.t * World) :
  SQLiteInv.sound σ →
  NoDup (map UserModel.username (stored_rows σ)) →
  NoDup (map UserModel.username (stored_rows (call o σ).2)).
Proof.
  intros Hs Hnd. rewrite call_rows by done.
  destruct o as [now username email | user_id |]; try done.
  case_decide as Hin; [done|]. rewrite map_app. simpl.
  apply NoDup_app. split_and!; [done | | apply NoDup_singleton].
  by intros name Hname ->%list_elem_of_singleton.
Qed.

Lemma calls_invariant (P : list UserModel.t → Prop) :
  (∀ o σ, SQLiteInv.sound σ → P (stored_rows σ) → P (stored_rows (call o σ).2)) →
  ∀ os σ, SQLiteInv.sound σ → P (stored_rows σ) → P (stored_rows (calls os σ).2).
Proof.
  intros Hstep os. induction os as [|o os IH]; intros σ Hs HP; [done|].
  rewrite calls_cons. cbn [fst snd].
  apply IH; [by apply SQLiteFacts.sound_call | by apply Hstep].
Qed.

(** X2. The persistent backend keeps the keys of the relation distinct and
    keeps the usernames distinct: if the database an instance is
    constructed on has no two rows with one id (with one username), then
    after any sequence of operations it still has none. *)
Theorem persistent_keys_and_usernames_stay_unique
    (path : string) (w : World) (os : list op) :
  let σ0 := (SQLiteUserRepository.new path, w) in
  (NoDup (map UserModel.id (stored_rows σ0)) →
   NoDup (map UserModel.id (stored_rows (calls os σ0).2))) ∧
  (NoDup (map UserModel.username (stored_rows σ0)) →
   NoDup (map UserModel.username (stored_rows (calls os σ0).2))).
Proof.
  intros σ0. pose proof (SQLiteFacts.sound_new path w) as Hs. split.
  - apply (calls_invariant (λ rows, NoDup (map UserModel.id rows)));
      [apply call_keys_unique | done].
  - apply (calls_invariant (λ rows, NoDup (map UserModel.username rows)));
      [apply call_usernames_unique | done].
Qed.

Lemma persistent_keys_and_usernames_stay_unique_witness :
  let σ0 := (SQLiteUserRepository.new "users.db", empty_world) in
  NoDup (map UserModel.id (stored_rows (calls example_ops σ0).2)) ∧
  NoDup (map UserModel.username (stored_rows (calls example_ops σ0).2)).
Proof.
  intros σ0. split.
  - apply (proj1 (persistent_keys_and_usernames_stay_unique
                    "users.db" empty_world example_ops)).
    apply (bool_decide_unpack _). vm_compute. reflexivity.
  - apply (proj2 (persistent_keys_and_usernames_stay_unique
                    "users.db" empty_world example_ops)).
    apply (bool_decide_unpack _). vm_compute. reflexivity.
Defined.

Lemma filter_id_unique (rows : list UserModel.t) (k : Z) :
  NoDup (map UserModel.id rows) →
  filter (λ r, UserModel.id r = k) rows = [] ∨
  ∃ r, filter (λ r, UserModel.id r = k) rows = [r].
Proof.
  induction rows as [|r rows IH]; simpl; [by left|].
  intros [Hnin Hnd]%NoDup_cons. destruct (decide (UserModel.id r = k)) as [Hk|Hk].
  - right. exists r. rewrite filter_cons_True by done.
    by rewrite filter_id_absent by (by rewrite <- Hk).
  - rewrite filter_cons_False by done. auto.
Qed.

Lemma call_answer_ok (o : op) (σ : SQLiteUserRepository.t * World) :
  SQLiteInv.sound σ →
  NoDup (map UserModel.id (stored_rows σ)) →
  answer_ok (call o σ).1.
Proof.
  intros Hs Hnd. rewrite call_fst.
  destruct o as [now username email | user_id |]; simpl.
  - rewrite (SQLiteFacts.create_user_result σ Hs now username email).
    by case_decide.
  - rewrite (SQLiteFacts.get_user_result σ Hs user_id).
    by destruct (filter_id_unique (stored_rows σ) user_id Hnd) as [->|[r ->]].
  - by rewrite (SQLiteFacts.list_users_result σ Hs).
Qed.

Lemma calls_answer_ok (os : list op) (σ : SQLiteUserRepository.t * World) :
  SQLiteInv.sound σ →
  NoDup (map UserModel.id (stored_rows σ)) →
  Forall answer_ok (calls os σ).1.
Proof.
  revert σ. induction os as [|o os IH]; intros σ Hs Hnd; [by constructor|].
  rewrite calls_cons. cbn [fst snd]. constructor.
  - by apply call_answer_ok.
  - apply IH; [by apply SQLiteFacts.sound_call | by apply call_keys_unique].
Qed.

(** X3. Where the engine's INTEGER does not run out, the persistent
    instance that the factory constructs (on the file [users.db]) raises
    nothing of its own making but the integrity error of [create_user]:
    on a database whose keys are distinct, for operations that ask only
    for ids within the signed 64-bit range and whose new keys fit, every
    [get_user] and [list_users] answers, and no operation finds the
    relation missing or a key stored twice. Failures of the storage itself
    are outside the nominal engine. *)
Theorem persistent_raises_only_integrity_error (w : World) (os : list op) :
  let σ0 := (SQLiteUserRepository.new "users.db", w) in
  NoDup (map UserModel.id (stored_rows σ0)) →
  ids_in_range os →
  keys_fit (stored_rows σ0) os →
  Forall answer_ok (calls os σ0).1.
Proof.
  intros σ0 Hnd _ _. by apply calls_answer_ok; [apply SQLiteFacts.sound_new|].
Qed.

Lemma persistent_raises_only_integrity_error_witness :
  Forall answer_ok
    (calls (example_ops ++ [CreateUser 400 "bob" "b2@x.com"; GetUser 7])
       (SQLiteUserRepository.new "users.db", empty_world)).1.
Proof.
  apply (persistent_raises_only_integrity_error empty_world).
  - apply (bool_decide_unpack _). vm_compute. reflexivity.
  - unfold ids_in_range, in_int64. repeat constructor; lia.
  - unfold keys_fit. vm_compute. discriminate.
Defined.

Lemma call_frame (o : op) (σ : SQLiteUserRepository.t * World) (q : string) :
  q ≠ SQLiteUserRepository.db_path σ.1 →
  files (call o σ).2.2 !! q = files σ.2 !! q ∧
  environ (call o σ).2.2 = environ σ.2.
Proof.
  intros Hq.
  assert (files (SQLiteInv.init_world σ) !! q = files σ.2 !! q) as Hinit.
  { unfold SQLiteInv.init_world, create_all.
    destruct (SQLiteUserRepository._initialized σ.1); [done|]. simpl.
    destruct (files σ.2 !! SQLiteUserRepository.db_path σ.1); [done|].
    by rewrite lookup_insert_ne. }
  pose proof (SQLiteFacts.init_world_environ σ) as Henv.
  rewrite call_snd. destruct o as [now username email | user_id |].
  - change (create_user now username email σ)
      with (SQLiteUserRepository.create_user now username email σ).
    rewrite SQLiteFacts.create_user_unfold. unfold insert_user.
    destruct (files (SQLiteInv.init_world σ) !! SQLiteUserRepository.db_path σ.1)
      as [rows|];
      [case_decide|]; simpl; rewrite ?lookup_insert_ne by done; done.
  - change (get_user user_id σ) with (SQLiteUserRepository.get_user user_id σ).
    rewrite SQLiteFacts.get_user_unfold. unfold select_where_id.
    destruct (files (SQLiteInv.init_world σ) !! SQLiteUserRepository.db_path σ.1)
      as [rows|]; simpl;
      [destruct (scalar_one_or_none _) as [[r|]|e]|]; done.
  - change (list_users σ) with (SQLiteUserRepository.list_users σ).
    rewrite SQLiteFacts.list_users_unfold. unfold select_order_by_id.
    by destruct (files (SQLiteInv.init_world σ) !! SQLiteUserRepository.db_path σ.1)
      as [rows|].
Qed.

(** X4. A persistent instance reads and writes only its own database
    file: after any sequence of operations every other file holds what it
    held before, and the environment variables are as they were. *)
Theorem persistent_touches_only_its_file
    (path : string) (w : World) (os : list op) (q : string) :
  q ≠ path →
  files (calls os (SQLiteUserRepository.new path, w)).2.2 !! q = files w !! q ∧
  environ (calls os (SQLiteUserRepository.new path, w)).2.2 = environ w.
Proof.
  intros Hq.
  cut (∀ σ, SQLiteUserRepository.db_path σ.1 = path →
         files (calls os σ).2.2 !! q = files σ.2 !! q ∧
         environ (calls os σ).2.2 = environ σ.2).
  { intros Hcut. by apply (Hcut (SQLiteUserRepository.new path, w)). }
  induction os as [|o os IH]; intros σ Hpath; [done|].
  rewrite calls_cons. cbn [fst snd].
  destruct (call_frame o σ q) as [Hf He]; [by rewrite Hpath|].
  destruct (IH (call o σ).2) as [IHf IHe].
  { by rewrite SQLiteFacts.call_self. }
  by rewrite IHf, IHe.
Qed.

Lemma persistent_touches_only_its_file_witness :
  files (calls example_ops
           (SQLiteUserRepository.new "users.db",
            mkWorld ∅ {["other.db" := []]} [])).2.2 !! "other.db"
    = Some [].
Proof.
  etrans.
  - apply (persistent_touches_only_its_file "users.db"
             (mkWorld ∅ {["other.db" := []]} []) example_ops "other.db").
    discriminate.
  - reflexivity.
Defined.

(** ** Lookup and listing agree *)

Lemma dict_get_elem {V : Type} (k : Z) (v : V) (d : list (Z * V)) :
  NoDup (map fst d) → dict_get k d = Some v ↔ (k, v) ∈ d.
Proof.
  induction d as [|[k' v'] d IH]; simpl.
  - intros _. split; [done | by intros ?%elem_of_nil].
  - intros [Hnin Hnd]%NoDup_cons. rewrite elem_of_cons.
    destruct (decide (k' = k)) as [->|Hne].
    + split; [intros [= ->]; by left|].
      intros [[= ->]|Hin]; [done|]. exfalso. apply Hnin.
      apply list_elem_of_fmap. by exists (k, v).
    + rewrite IH by done. split; [by right|]. by intros [[= ? ?]|Hin].
Qed.

Lemma keys_are_ids (d : list (Z * User.t)) :
  map User.id (map snd d) = map fst d → Forall (λ p, User.id p.2 = p.1) d.
Proof.
  induction d as [|[k u] d IH]; simpl; [by constructor|].
  intros [= Hk Hd]. constructor; auto.
Qed.

Lemma get_user_row_iff (rows : list UserModel.t) (k : Z) (u : User.t) :
  NoDup (map UserModel.id rows) →
  match scalar_one_or_none (filter (λ r, UserModel.id r = k) rows) with
  | Ok (Some r) => Ok (Some (model_validate r))
  | Ok None => Ok None
  | Raise e => Raise e
  end = Ok (Some u) ↔
  ∃ r, r ∈ rows ∧ UserModel.id r = k ∧ model_validate r = u.
Proof.
  intros Hnd. destruct (filter_id_unique rows k Hnd) as [Hf|[r Hf]]; rewrite Hf; simpl.
  - split; [done|]. intros (r & Hin & Hk & _).
    assert (r ∈ filter (λ r, UserModel.id r = k) rows) as Hr
      by (by apply list_elem_of_filter).
    rewrite Hf in Hr. by apply elem_of_nil in Hr.
  - assert (r ∈ filter (λ r, UserModel.id r = k) rows) as Hr
      by (rewrite Hf; apply list_elem_of_here).
    apply list_elem_of_filter in Hr as [Hk Hin]. split.
    + intros [= <-]. by exists r.
    + intros (r' & Hin' & Hk' & <-).
      assert (r' ∈ filter (λ r, UserModel.id r = k) rows) as Hr'
        by (by apply list_elem_of_filter).
      rewrite Hf in Hr'. by apply list_elem_of_singleton in Hr' as ->.
Qed.

(** X5. [get_user] and [list_users] agree: on an instance that started
    fresh, [get_user] answers a user for an id exactly when that user is in
    the listing and carries that id. This holds of the in-memory backend,
    and of the persistent backend on a database whose keys are distinct. *)
Theorem get_user_agrees_with_list_users :
  (∀ (os : list op) (k : Z) (u : User.t) (users : list User.t),
     let s := (calls os InMemoryUserRepository.new).2 in
     (list_users s).1 = Ok users →
     (get_user k s).1 = Ok (Some u) ↔ u ∈ users ∧ User.id u = k) ∧
  (∀ (path : string) (w : World) (os : list op) (k : Z) (u : User.t)
     (users : list User.t),
     let σ0 := (SQLiteUserRepository.new path, w) in
     let σ := (calls os σ0).2 in
     NoDup (map UserModel.id (stored_rows σ0)) →
     (list_users σ).1 = Ok users →
     (get_user k σ).1 = Ok (Some u) ↔ u ∈ users ∧ User.id u = k).
Proof.
  split.
  - intros os k u users s [= <-].
    pose proof (InMemoryFacts.inv_calls os _ InMemoryFacts.inv_new) as (Hk & Hi & _).
    fold s in Hk, Hi.
    assert (NoDup (map fst (InMemoryUserRepository._users s))) as Hnd
      by (rewrite Hk; apply NoDup_seqZ).
    pose proof (keys_are_ids _ Hi) as Hids. rewrite Forall_forall in Hids.
    simpl. split.
    + intros [= Hget]. apply dict_get_elem in Hget; [|done]. split.
      * apply list_elem_of_fmap. by exists (k, u).
      * exact (Hids _ Hget).
    + intros [(p & -> & Hin)%list_elem_of_fmap <-]. f_equal.
      apply dict_get_elem; [done|]. rewrite (Hids _ Hin). by destruct p.
  - intros path w os k u users σ0 σ Hnd0 Hlist.
    assert (SQLiteInv.sound σ) as Hs
      by apply SQLiteFacts.sound_calls, SQLiteFacts.sound_new.
    assert (NoDup (map UserModel.id (stored_rows σ))) as Hnd.
    { apply (calls_invariant (λ rows, NoDup (map UserModel.id rows)));
        [apply call_keys_unique | apply SQLiteFacts.sound_new | done]. }
    assert (users = map model_validate (order_by_id (stored_rows σ))) as ->.
    { pose proof (SQLiteFacts.list_users_result σ Hs) as Hres.
      change (SQLiteUserRepository.list_users σ) with (list_users σ) in Hres.
      rewrite Hres in Hlist. by injection Hlist. }
    change (get_user k σ) with (SQLiteUserRepository.get_user k σ).
    rewrite (SQLiteFacts.get_user_result σ Hs k), (get_user_row_iff _ k u Hnd).
    split.
    + intros (r & Hin & Hk & <-). split; [|done].
      apply list_elem_of_fmap. exists r. by rewrite order_by_id_perm.
    + intros [(r & -> & Hin)%list_elem_of_fmap <-]. exists r.
      by rewrite order_by_id_perm in Hin.
Qed.

Lemma get_user_agrees_with_list_users_witness :
  (get_user 2 (calls example_ops InMemoryUserRepository.new).2).1
    = Ok (Some (User.mk 2 "bob" "bob@x.com" 200)) ∧
  (get_user 2 (calls example_ops
                 (SQLiteUserRepository.new "users.db", empty_world)).2).1
    = Ok (Some (User.mk 2 "bob" "bob@x.com" 200)).
Proof.
  split.
  - eapply (proj1 get_user_agrees_with_list_users example_ops); [reflexivity|].
    split; [|reflexivity]. apply (bool_decide_unpack _). vm_compute. reflexivity.
  - eapply (proj2 get_user_agrees_with_list_users "users.db" empty_world
              example_ops).
    + apply (bool_decide_unpack _). vm_compute. reflexivity.
    + vm_compute. reflexivity.
    + split; [|reflexivity]. apply (bool_decide_unpack _). vm_compute. reflexivity.
Defined.

(** ** The keys the engine assigns *)

Lemma foldr_max_push (x a : Z) (l : list Z) :
  foldr Z.max (Z.max x a) l = Z.max x (foldr Z.max a l).
Proof. induction l as [|y l IH]; simpl; [done|]. rewrite IH. lia. Qed.

Lemma next_rowid_snoc (rows : list UserModel.t) (r : UserModel.t) :
  UserModel.id r = next_rowid rows → next_rowid (rows ++ [r]) = 1 + UserModel.id r.
Proof.
  destruct rows as [|r0 rows]; simpl; [done|].
  rewrite map_app, foldr_app. simpl. rewrite foldr_max_push. lia.
Qed.

Lemma created_ids_increase (os : list op) (σ : SQLiteUserRepository.t * World) :
  SQLiteInv.sound σ →
  StronglySorted Z.lt (map User.id (created (calls os σ).1)) ∧
  Forall (λ u, next_rowid (stored_rows σ) ≤ User.id u) (created (calls os σ).1).
Proof.
  revert σ. induction os as [|o os IH]; intros σ Hs.
  - split; constructor.
  - rewrite calls_cons. cbn [fst snd]. rewrite created_cons.
    destruct (IH (call o σ).2 (SQLiteFacts.sound_call o σ Hs)) as [IH1 IH2].
    rewrite call_rows in IH2 by done. rewrite call_fst.
    destruct o as [now username email | user_id |]; simpl; [|done|done].
    rewrite (SQLiteFacts.create_user_result σ Hs now username email).
    case_decide; simpl; [done|].
    rewrite next_rowid_snoc in IH2 by done. simpl in IH2. split.
    + constructor; [done|]. apply Forall_fmap.
      eapply Forall_impl; [exact IH2|]. simpl. lia.
    + constructor; [simpl; lia|].
      eapply Forall_impl; [exact IH2|]. simpl. lia.
Qed.

Lemma created_ids_bounded (os : list op) (σ : SQLiteUserRepository.t * World) :
  SQLiteInv.sound σ →
  Forall (λ u, User.id u <
               next_rowid (stored_rows σ) + Z.of_nat (length (filter is_create os)))
         (created (calls os σ).1).
Proof.
  revert σ. induction os as [|o os IH]; intros σ Hs; [constructor|].
  rewrite calls_cons. cbn [fst snd]. rewrite created_cons.
  pose proof (IH (call o σ).2 (SQLiteFacts.sound_call o σ Hs)) as IH'.
  rewrite call_rows in IH' by done. rewrite call_fst.
  destruct o as [now username email | user_id |]; simpl; [|done|done].
  rewrite (SQLiteFacts.create_user_result σ Hs now username email).
  case_decide; simpl.
  - eapply Forall_impl; [exact IH'|]. simpl. lia.
  - rewrite next_rowid_snoc in IH' by done. simpl in IH'.
    constructor; [simpl; lia|].
    eapply Forall_impl; [exact IH'|]. simpl. lia.
Qed.

(** X6. While the keys fit, the persistent backend hands them out in
    strictly increasing order: if the keys that the [create_user] calls of
    a sequence of operations can be given do not pass the largest key of
    the engine, then the ids of the users returned increase in call order,
    are pairwise distinct, stay within the signed 64-bit range, and each
    is larger than every key that the database held when the instance was
    constructed. *)
Theorem persistent_ids_increase (path : string) (w : World) (os : list op) :
  let σ0 := (SQLiteUserRepository.new path, w) in
  let users := created (calls os σ0).1 in
  keys_fit (stored_rows σ0) os →
  StronglySorted Z.lt (map User.id users) ∧
  NoDup (map User.id users) ∧
  Forall (λ u, User.id u < 2 ^ 63) users ∧
  Forall (λ u, Forall (λ r, UserModel.id r < User.id u) (stored_rows σ0)) users.
Proof.
  intros σ0 users Hfit.
  destruct (created_ids_increase os σ0 (SQLiteFacts.sound_new path w)) as [Hs Hge].
  pose proof (created_ids_bounded os σ0 (SQLiteFacts.sound_new path w)) as Hlt.
  fold users in Hs, Hge, Hlt. split_and!; [done | | |].
  - clear Hge Hlt. induction Hs as [|k ks Hks IH Hk]; constructor; [|done].
    intros Hin. rewrite Forall_forall in Hk. specialize (Hk k Hin). lia.
  - eapply Forall_impl; [exact Hlt|]. intros u Hu. simpl in Hu.
    unfold keys_fit in Hfit. lia.
  - eapply Forall_impl; [exact Hge|]. intros u Hu. simpl in Hu.
    apply Forall_forall. intros r Hr%next_rowid_gt. lia.
Qed.

Lemma persistent_ids_increase_witness :
  let users := created (calls example_ops
                 (SQLiteUserRepository.new "users.db", empty_world)).1 in
  StronglySorted Z.lt (map User.id users) ∧
  NoDup (map User.id users) ∧
  Forall (λ u, User.id u < 2 ^ 63) users ∧
  Forall (λ u, Forall (λ r, UserModel.id r < User.id u)
                 (stored_rows (SQLiteUserRepository.new "users.db", empty_world)))
         users.
Proof.
  apply (persistent_ids_increase "users.db" empty_world example_ops).
  unfold keys_fit. vm_compute. discriminate.
Defined.

(** ** The two backends side by side *)

Lemma validate_row_of_user (u : User.t) : model_validate (row_of_user u) = u.
Proof. by destruct u. Qed.

Lemma insert_by_id_last (r : UserModel.t) (rows : list UserModel.t) :
  Forall (λ r', UserModel.id r' ≤ UserModel.id r) rows →
  insert_by_id r rows = rows ++ [r].
Proof.
  induction rows as [|r' rows IH]; simpl; [done|].
  intros [Hle Hrows]%Forall_cons. rewrite decide_False by lia. by rewrite IH.
Qed.

(** Rows that are stored in the order of their keys are read in the order
    they are stored. *)
Lemma order_by_id_sorted_rows (rows : list UserModel.t) :
  StronglySorted Z.lt (map UserModel.id rows) → order_by_id rows = rows.
Proof.
  induction rows as [|x l IH] using rev_ind; [done|].
  rewrite map_app. intros Hs. unfold order_by_id. rewrite reverse_snoc. simpl.
  fold (order_by_id l). rewrite IH by (by apply StronglySorted_app_1_l in Hs).
  apply insert_by_id_last, Forall_forall. intros r Hr.
  assert (UserModel.id r < UserModel.id x); [|lia].
  eapply (StronglySorted_app_1_elem_of _ _ _ _ _ Hs).
  - apply list_elem_of_fmap. by exists r.
  - apply list_elem_of_here.
Qed.

Lemma same_users_call (o : op) (s : InMemoryUserRepository.t)
    (σ : SQLiteUserRepository.t * World) :
  same_users s σ →
  Forall (λ name, name ∉ map UserModel.username (stored_rows σ))
         (create_usernames [o]) →
  (call o s).1 = (call o σ).1 ∧ same_users (call o s).2 (call o σ).2.
Proof.
  intros (Hinv & Hs & Hrows & Hnext) Hfresh.
  pose proof Hinv as (Hkeys & Hids & Hn).
  assert (map UserModel.id (stored_rows σ)
          = map fst (InMemoryUserRepository._users s)) as Hrowids.
  { rewrite Hrows, <- Hids. unfold dict_values. by rewrite !map_map. }
  split.
  - rewrite !call_fst. destruct o as [now username email | user_id |]; simpl.
    + rewrite (SQLiteFacts.create_user_result σ Hs now username email).
      apply Forall_cons in Hfresh as [Hfresh _].
      by rewrite decide_False, Hnext by done.
    + rewrite (SQLiteFacts.get_user_result σ Hs user_id). f_equal.
      assert (NoDup (map fst (InMemoryUserRepository._users s))) as Hnd
        by (rewrite Hkeys; apply NoDup_seqZ).
      assert (NoDup (map UserModel.id (stored_rows σ))) as Hnd'
        by (by rewrite Hrowids).
      pose proof (keys_are_ids _ Hids) as Hk. rewrite Forall_forall in Hk.
      destruct (dict_get user_id (InMemoryUserRepository._users s)) as [u|] eqn:Hget.
      * apply dict_get_elem in Hget; [|done].
        symmetry. apply get_user_row_iff; [done|]. exists (row_of_user u).
        split_and!; [| exact (Hk _ Hget) | apply validate_row_of_user].
        rewrite Hrows. apply list_elem_of_fmap. exists u. split; [done|].
        apply list_elem_of_fmap. by exists (user_id, u).
      * destruct (filter_id_unique (stored_rows σ) user_id Hnd') as [->|[r Hf]];
          [done|]. exfalso.
        assert (r ∈ filter (λ r, UserModel.id r = user_id) (stored_rows σ)) as Hr
          by (rewrite Hf; apply list_elem_of_here).
        apply list_elem_of_filter in Hr as [Hid Hr]. rewrite Hrows in Hr.
        apply list_elem_of_fmap in Hr as (u & -> & Hu).
        apply list_elem_of_fmap in Hu as ([k u'] & -> & Hin).
        pose proof (Hk _ Hin) as Hku. simpl in *. subst k. rewrite Hid in Hin.
        apply dict_get_elem in Hin; [|done]. congruence.
    + rewrite (SQLiteFacts.list_users_result σ Hs). do 2 f_equal.
      rewrite order_by_id_sorted_rows.
      * rewrite Hrows, map_map. symmetry. etrans; [|apply map_id].
        apply map_ext. intros u. by rewrite validate_row_of_user.
      * rewrite Hrowids, Hkeys. apply seqZ_lt_sorted.
  - rewrite InMemoryFacts.call_state. unfold same_users.
    rewrite call_rows by done.
    destruct o as [now username email | user_id |];
      [| by split_and!; [| apply SQLiteFacts.sound_call | |]..].
    apply Forall_cons in Hfresh as [Hfresh _]. rewrite decide_False by done.
    split_and!.
    + by apply InMemoryFacts.inv_create_user.
    + by apply SQLiteFacts.sound_call.
    + rewrite (InMemoryFacts.create_user_appends now username email s Hinv).
      rewrite Hnext, Hrows. unfold dict_values. by rewrite !map_app.
    + rewrite next_rowid_snoc by done. simpl. lia.
Qed.

Lemma same_users_calls (os : list op) (s : InMemoryUserRepository.t)
    (σ : SQLiteUserRepository.t * World) :
  same_users s σ →
  NoDup (create_usernames os) →
  Forall (λ name, name ∉ map UserModel.username (stored_rows σ))
         (create_usernames os) →
  (calls os s).1 = (calls os σ).1.
Proof.
  revert s σ. induction os as [|o os IH]; intros s σ Hsim Hnd Hfresh; [done|].
  rewrite !calls_cons. cbn [fst snd].
  assert (create_usernames (o :: os) = create_usernames [o] ++ create_usernames os)
    as Hsplit by (by destruct o).
  rewrite Hsplit in Hnd, Hfresh.
  apply NoDup_app in Hnd as (_ & Hdisj & Hnd).
  apply Forall_app in Hfresh as [Hfresh_o Hfresh].
  destruct (same_users_call o s σ Hsim Hfresh_o) as [Heq Hsim'].
  f_equal; [done|]. apply IH; [done | done |].
  rewrite call_rows by apply Hsim.
  destruct o as [now username email | user_id |]; try done.
  apply Forall_cons in Hfresh_o as [Hfresh_o _]. rewrite decide_False by done.
  apply Forall_forall. intros name Hname. rewrite map_app. simpl.
  rewrite Forall_forall in Hfresh.
  intros [Hin|Hin%list_elem_of_singleton]%elem_of_app; [by apply (Hfresh name)|].
  subst name. apply (Hdisj username); [apply list_elem_of_here | done].
Qed.

(** X7. The two backends that the factory constructs are interchangeable
    while usernames are not repeated and the engine's INTEGER does not run
    out: a fresh in-memory instance and a persistent instance on a file
    [users.db] without users give the same answers, ids and timestamps
    included, to every sequence of operations whose [create_user] calls
    carry pairwise distinct usernames, that asks only for ids within the
    signed 64-bit range, and whose new keys fit. *)
Theorem backends_answer_alike (w : World) (os : list op) :
  let σ0 := (SQLiteUserRepository.new "users.db", w) in
  stored_rows σ0 = [] →
  NoDup (create_usernames os) →
  ids_in_range os →
  keys_fit (stored_rows σ0) os →
  (calls os InMemoryUserRepository.new).1 = (calls os σ0).1.
Proof.
  intros σ0 Hempty Hnd _ _. apply same_users_calls; [| done |].
  - split_and!; [done | apply SQLiteFacts.sound_new | by rewrite Hempty
                 | by rewrite Hempty].
  - rewrite Hempty. apply Forall_forall. by intros name _ ?%elem_of_nil.
Qed.

Lemma backends_answer_alike_witness :
  (calls [CreateUser 100 "alice" "alice@x.com"; GetUser 1;
          CreateUser 200 "bob" "bob@x.com"; ListUsers; GetUser 5]
     InMemoryUserRepository.new).1 =
  (calls [CreateUser 100 "alice" "alice@x.com"; GetUser 1;
          CreateUser 200 "bob" "bob@x.com"; ListUsers; GetUser 5]
     (SQLiteUserRepository.new "users.db", empty_world)).1.
Proof.
  apply (backends_answer_alike empty_world).
  - reflexivity.
  - apply (bool_decide_unpack _). vm_compute. reflexivity.
  - unfold ids_in_range, in_int64. repeat constructor; lia.
  - unfold keys_fit. vm_compute. discriminate.
Defined.

(** ** The factory and the module that calls it *)

Lemma lower_char_idem (c : ascii) : lower_char (lower_char c) = lower_char c.
Proof.
  assert (forallb (λ c, Ascii.eqb (lower_char (lower_char c)) (lower_char c))
            all_ascii = true) as Hall by (vm_compute; reflexivity).
  rewrite forallb_forall in Hall. apply Ascii.eqb_eq, Hall.
  apply list_elem_of_In, all_ascii_complete.
Qed.

Lemma lower_idem (s : string) : lower (lower s) = lower s.
Proof. induction s as [|c s IH]; simpl; [done|]. by rewrite lower_char_idem, IH. Qed.

(** X8. The factory looks at the selector only through its lower-cased
    form: lower-casing the selector beforehand changes nothing, so two
    selectors that differ in letter case alone always get the same
    outcome, error message included; and a given selector makes the
    factory ignore the environment. *)
Theorem factory_sees_only_the_lower_cased_selector
    (s1 s2 : string) (w w' : World) :
  (create_user_repository (Some (lower s1)) w).1 =
    (create_user_repository (Some s1) w).1 ∧
  (lower s1 = lower s2 →
   (create_user_repository (Some s1) w).1 =
     (create_user_repository (Some s2) w).1) ∧
  (create_user_repository (Some s1) w).1 =
    (create_user_repository (Some s1) w').1.
Proof.
  rewrite !create_user_repository_unfold, lower_idem. split_and!.
  - by repeat case_decide.
  - intros <-. by repeat case_decide.
  - by repeat case_decide.
Qed.

Lemma factory_sees_only_the_lower_cased_selector_witness :
  (create_user_repository (Some "SQLite") empty_world).1 =
  (create_user_repository (Some "sqLITE") empty_world).1.
Proof.
  apply (proj1 (proj2 (factory_sees_only_the_lower_cased_selector
                         "SQLite" "sqLITE" empty_world empty_world))).
  reflexivity.
Defined.

Lemma load_dotenv_idem (dotenv : gmap string string) (w : World) :
  load_dotenv dotenv (load_dotenv dotenv w) = load_dotenv dotenv w.
Proof.
  unfold load_dotenv. simpl. f_equal.
  by rewrite <- (assoc_L (∪)), (idemp_L (∪)).
Qed.

Lemma main_load_unfold (dotenv : gmap string string) (w : World) :
  Main.load dotenv w =
    let w' := load_dotenv dotenv w in
    let selector := getenv "REPO_TYPE" "memory" w' in
    if decide (lower selector = "memory") then
      (Ok (Main.mk selector (Memory InMemoryUserRepository.new)), w')
    else if decide (lower selector = "sqlite") then
      (Ok (Main.mk selector (SQLite (SQLiteUserRepository.new "users.db"))), w')
    else
      (Raise (ValueError ("Unknown repository type: " +:+ lower selector +:+
                          ". Use 'memory' or 'sqlite'")), w').
Proof.
  unfold Main.load. rewrite load_dotenv_idem. simpl.
  change (create_user_repository None (load_dotenv dotenv w))
    with (create_user_repository
            (Some (getenv "REPO_TYPE" "memory" (load_dotenv dotenv w)))
            (load_dotenv dotenv w)).
  rewrite create_user_repository_unfold. by repeat case_decide.
Qed.

(** X9. Loading [app/main.py] first adds the variables of the [.env] file
    to the environment, leaving the variables that are set as they are.
    The selector is then [REPO_TYPE] of the environment, else of the
    [.env] file, else [memory]; loading succeeds exactly when it is
    [memory] or [sqlite] in some letter case and raises the factory's
    [ValueError] otherwise. The module's [repo_type], which [root]
    reports, is the selector as it is written, not lower-cased. Loading
    changes no database file and runs no statement. *)
Theorem main_load_selects_backend (dotenv : gmap string string) (w : World) :
  let w' := load_dotenv dotenv w in
  let selector := getenv "REPO_TYPE" "memory" w' in
  (∀ v : string, environ w !! "REPO_TYPE" = Some v → selector = v) ∧
  (environ w !! "REPO_TYPE" = None →
   selector = default "memory" (dotenv !! "REPO_TYPE")) ∧
  (any_case "memory" selector = true →
   Main.load dotenv w =
     (Ok (Main.mk selector (Memory InMemoryUserRepository.new)), w')) ∧
  (any_case "sqlite" selector = true →
   Main.load dotenv w =
     (Ok (Main.mk selector (SQLite (SQLiteUserRepository.new "users.db"))), w')) ∧
  (any_case "memory" selector = false → any_case "sqlite" selector = false →
   Main.load dotenv w =
     (Raise (ValueError ("Unknown repository type: " +:+ lower selector +:+
                         ". Use 'memory' or 'sqlite'")), w')) ∧
  (∀ app w'', Main.load dotenv w = (Ok app, w'') →
     w'' = w' ∧
     Main.root app = [("message", "User Registration API - Factory Pattern Demo");
                      ("repository_type", selector)]) ∧
  files w' = files w ∧ statements w' = statements w ∧
  (∀ (k v : string), environ w !! k = Some v → environ w' !! k = Some v) ∧
  (∀ (k v : string),
     environ w !! k = None → dotenv !! k = Some v → environ w' !! k = Some v).
Proof.
  intros w' selector.
  assert (∀ v : string, environ w !! "REPO_TYPE" = Some v → selector = v) as H1.
  { intros v Hv. unfold selector, getenv, w'. simpl.
    by rewrite (lookup_union_Some_l _ _ _ _ Hv). }
  assert (environ w !! "REPO_TYPE" = None →
          selector = default "memory" (dotenv !! "REPO_TYPE")) as H2.
  { intros Hnone. unfold selector, getenv, w'. simpl.
    by rewrite (lookup_union_r _ _ _ Hnone). }
  rewrite main_load_unfold. cbv zeta.
  change (load_dotenv dotenv w) with w'.
  change (getenv "REPO_TYPE" "memory" w') with selector.
  clearbody selector.
  pose proof (lower_any_case "memory" selector eq_refl) as Hm.
  pose proof (lower_any_case "sqlite" selector eq_refl) as Hs.
  split_and!; [done | done | | | | | done | done | |].
  - intros Hc. by rewrite decide_True by (by apply Hm).
  - intros Hc. apply Hs in Hc. rewrite decide_False, decide_True; [done..|].
    by rewrite Hc.
  - intros Hnm Hns. rewrite !decide_False; [done | |].
    + intros Heq%Hs. congruence.
    + intros Heq%Hm. congruence.
  - intros app w''. repeat case_decide; by intros [= <- <-].
  - intros k v Hk. unfold w'. simpl. by apply lookup_union_Some_l.
  - intros k v Hnone Hk. unfold w'. simpl.
    by rewrite (lookup_union_r _ _ _ Hnone).
Qed.

Lemma main_load_selects_backend_witness :
  Main.load {["REPO_TYPE" := "SQLite"]} empty_world =
    (Ok (Main.mk "SQLite" (SQLite (SQLiteUserRepository.new "users.db"))),
     load_dotenv {["REPO_TYPE" := "SQLite"]} empty_world) ∧
  Main.load {["REPO_TYPE" := "SQLite"]}
      (mkWorld {["REPO_TYPE" := "memory"]} ∅ []) =
    (Ok (Main.mk "memory" (Memory InMemoryUserRepository.new)),
     load_dotenv {["REPO_TYPE" := "SQLite"]}
       (mkWorld {["REPO_TYPE" := "memory"]} ∅ [])).
Proof.
  split.
  - etrans.
    + apply (proj1 (proj2 (proj2 (proj2
               (main_load_selects_backend {["REPO_TYPE" := "SQLite"]}
                  empty_world))))).
      vm_compute. reflexivity.
    + vm_compute. reflexivity.
  - etrans.
    + apply (proj1 (proj2 (proj2
               (main_load_selects_backend {["REPO_TYPE" := "SQLite"]}
                  (mkWorld {["REPO_TYPE" := "memory"]} ∅ []))))).
      vm_compute. reflexivity.
    + vm_compute. reflexivity.
Defined.

(** ** The handlers *)

Lemma call_memory (o : op) (r : InMemoryUserRepository.t) (w : World) :
  call o (Memory r, w) = ((call o r).1, (Memory (call o r).2, w)).
Proof. by destruct o. Qed.

Lemma call_sqlite (o : op) (r : SQLiteUserRepository.t) (w : World) :
  call o (SQLite r, w) =
    ((call o (r, w)).1, (SQLite (call o (r, w)).2.1, (call o (r, w)).2.2)).
Proof.
  destruct o as [now username email | user_id |]; simpl.
  - by destruct (SQLiteUserRepository.create_user _ _ _ _) as [x [r' w']].
  - by destruct (SQLiteUserRepository.get_user _ _) as [x [r' w']].
  - by destruct (SQLiteUserRepository.list_users _) as [x [r' w']].
Qed.

(** A handler does what its operation does on [repo]. *)
Lemma handle_call (q : Main.request) (σ : Main.t * World) :
  Main.handle q σ =
    (respond q (call (op_of_request q) (Main.repo σ.1, σ.2)).1,
     (Main.mk (Main.repo_type σ.1)
        (call (op_of_request q) (Main.repo σ.1, σ.2)).2.1,
      (call (op_of_request q) (Main.repo σ.1, σ.2)).2.2)).
Proof.
  destruct q as [now user_data | | user_id];
    unfold Main.handle, Main.register_user, Main.list_users, Main.get_user,
      op_of_request, call.
  - by destruct (create_user _ _ _ (Main.repo σ.1, σ.2)) as [r ρ].
  - by destruct (list_users (Main.repo σ.1, σ.2)) as [r ρ].
  - by destruct (get_user _ (Main.repo σ.1, σ.2)) as [[[u|]|e] ρ].
Qed.

Lemma serve_cons (q : Main.request) (qs : list Main.request) (σ : Main.t * World) :
  Main.serve (q :: qs) σ =
    ((Main.handle q σ).1 :: (Main.serve qs (Main.handle q σ).2).1,
     (Main.serve qs (Main.handle q σ).2).2).
Proof.
  simpl. destruct (Main.handle q σ) as [a σ']. simpl.
  by destruct (Main.serve qs σ').
Qed.

Lemma serve_memory (qs : list Main.request) (t : string)
    (r : InMemoryUserRepository.t) (w : World) :
  Main.serve qs (Main.mk t (Memory r), w) =
    (zip_with respond qs (calls (map op_of_request qs) r).1,
     (Main.mk t (Memory (calls (map op_of_request qs) r).2), w)).
Proof.
  revert r. induction qs as [|q qs IH]; intros r; [done|].
  rewrite serve_cons, handle_call. cbn [fst snd Main.repo Main.repo_type].
  rewrite call_memory. cbn [fst snd]. rewrite IH.
  change (map op_of_request (q :: qs))
    with (op_of_request q :: map op_of_request qs).
  by rewrite calls_cons.
Qed.

Lemma serve_sqlite (qs : list Main.request) (t : string)
    (r : SQLiteUserRepository.t) (w : World) :
  Main.serve qs (Main.mk t (SQLite r), w) =
    (zip_with respond qs (calls (map op_of_request qs) (r, w)).1,
     (Main.mk t (SQLite (calls (map op_of_request qs) (r, w)).2.1),
      (calls (map op_of_request qs) (r, w)).2.2)).
Proof.
  revert r w. induction qs as [|q qs IH]; intros r w; [done|].
  rewrite serve_cons, handle_call. cbn [fst snd Main.repo Main.repo_type].
  rewrite call_sqlite. cbn [fst snd]. rewrite IH.
  change (map op_of_request (q :: qs))
    with (op_of_request q :: map op_of_request qs).
  rewrite calls_cons. cbn [fst snd].
  by destruct (call (op_of_request q) (r, w)) as [a [r' w']].
Qed.

Lemma registered_respond (qs : list Main.request) (answers : list answer) :
  registered (zip_with respond qs answers) =
    created (take (length qs) answers).
Proof.
  revert answers. induction qs as [|q qs IH]; intros [|a answers]; simpl; try done.
  specialize (IH answers). unfold registered, created in *. simpl.
  destruct a as [[u|e]|r|r]; simpl; by rewrite ?IH.
Qed.

Lemma length_calls {R : Type} `{!UserRepository R} (os : list op) (repo : R) :
  length (calls os repo).1 = length os.
Proof.
  revert repo. induction os as [|o os IH]; intros repo; [done|].
  rewrite calls_cons. simpl. by rewrite IH.
Qed.

Lemma registered_created {R : Type} `{!UserRepository R}
    (qs : list Main.request) (repo : R) :
  registered (zip_with respond qs (calls (map op_of_request qs) repo).1) =
    created (calls (map op_of_request qs) repo).1.
Proof.
  rewrite registered_respond, firstn_all2; [done|].
  by rewrite length_calls, length_map.
Qed.

Lemma main_get_user_memory (k : Z) (t : string) (r : InMemoryUserRepository.t)
    (w : World) :
  (Main.get_user k (Main.mk t (Memory r), w)).1 =
    match dict_get k (InMemoryUserRepository._users r) with
    | Some u => Main.Return u
    | None =>
        Main.HTTPException 404 ("User with ID " +:+ pretty k +:+ " not found")
    end.
Proof. unfold Main.get_user. simpl. by destruct (dict_get _ _). Qed.

Lemma main_get_user_sqlite (k : Z) (t : string) (r : SQLiteUserRepository.t)
    (w : World) :
  (Main.get_user k (Main.mk t (SQLite r), w)).1 =
    match (SQLiteUserRepository.get_user k (r, w)).1 with
    | Ok (Some u) => Main.Return u
    | Ok None =>
        Main.HTTPException 404 ("User with ID " +:+ pretty k +:+ " not found")
    | Raise e => Main.Propagate e
    end.
Proof.
  unfold Main.get_user. simpl.
  by destruct (SQLiteUserRepository.get_user k (r, w)) as [[[u|]|e] [r' w']].
Qed.

Lemma main_load_repo (dotenv : gmap string string) (w w' : World)
    (app : Main.t) :
  Main.load dotenv w = (Ok app, w') →
  w' = load_dotenv dotenv w ∧
  (Main.repo app = Memory InMemoryUserRepository.new ∨
   Main.repo app = SQLite (SQLiteUserRepository.new "users.db")).
Proof.
  rewrite main_load_unfold. simpl.
  repeat case_decide; intros [= <- <-]; auto.
Qed.

(** X10. Through the handlers of a loaded application, whichever backend
    was selected, a user that [register_user] has returned is found by
    [get_user] under its id after any further requests: the handler
    returns that user and raises no 404. *)
Theorem registered_user_is_found
    (dotenv : gmap string string) (w w0 : World) (app : Main.t)
    (qs : list Main.request) (u : User.t) :
  Main.load dotenv w = (Ok app, w0) →
  u ∈ registered (Main.serve qs (app, w0)).1 →
  (Main.get_user (User.id u) (Main.serve qs (app, w0)).2).1 = Main.Return u.
Proof.
  intros [-> Hrepo]%main_load_repo. destruct app as [t repo]. simpl in Hrepo.
  destruct Hrepo as [-> | ->].
  - rewrite serve_memory. cbn [fst snd]. rewrite registered_created.
    intros Hu. rewrite main_get_user_memory.
    by rewrite (InMemoryFacts.get_created _ _ u Hu).
  - rewrite serve_sqlite. cbn [fst snd]. rewrite registered_created.
    intros Hu. rewrite main_get_user_sqlite.
    pose proof (SQLiteFacts.sound_new "users.db" (load_dotenv dotenv w)) as Hs.
    rewrite <- surjective_pairing.
    rewrite SQLiteFacts.holds_get;
      [done | by apply SQLiteFacts.sound_calls
       | by apply SQLiteFacts.created_holds].
Qed.

Lemma registered_user_is_found_witness :
  let qs := [Main.PostUsers 100 (UserCreate.mk "alice" "alice@x.com");
             Main.GetUsers;
             Main.PostUsers 200 (UserCreate.mk "bob" "bob@x.com")] in
  let w := mkWorld {["REPO_TYPE" := "SQLite"]} ∅ [] in
  (Main.get_user 2
     (Main.serve qs
        (Main.mk "SQLite" (SQLite (SQLiteUserRepository.new "users.db")), w)).2).1
    = Main.Return (User.mk 2 "bob" "bob@x.com" 200).
Proof.
  intros qs w.
  apply (registered_user_is_found ∅ w w
           (Main.mk "SQLite" (SQLite (SQLiteUserRepository.new "users.db")))
           qs (User.mk 2 "bob" "bob@x.com" 200)).
  - vm_compute. reflexivity.
  - apply (bool_decide_unpack _). vm_compute. reflexivity.
Defined.

(** X11. With the in-memory backend, [get_user] for an id that no
    registration has returned raises [HTTPException] with status 404 and
    the detail [User with ID <id> not found], the id in decimal; the
    instance is left as it was. *)
Theorem unknown_user_is_404
    (dotenv : gmap string string) (w w0 : World) (app : Main.t)
    (qs : list Main.request) (k : Z) :
  Main.load dotenv w = (Ok app, w0) →
  Main.repo app = Memory InMemoryUserRepository.new →
  k ∉ map User.id (registered (Main.serve qs (app, w0)).1) →
  Main.get_user k (Main.serve qs (app, w0)).2 =
    (Main.HTTPException 404 ("User with ID " +:+ pretty k +:+ " not found"),
     (Main.serve qs (app, w0)).2).
Proof.
  intros [-> _]%main_load_repo. destruct app as [t repo]. simpl. intros ->.
  rewrite serve_memory. cbn [fst snd]. rewrite registered_created. intros Hk.
  pose proof (InMemoryFacts.inv_calls (map op_of_request qs) _
                InMemoryFacts.inv_new) as (_ & Hids & _).
  pose proof (InMemoryFacts.users_after_calls (map op_of_request qs) _
                InMemoryFacts.inv_new) as Hvals.
  simpl in Hvals. rewrite <- Hvals, Hids in Hk.
  unfold Main.get_user. simpl. by rewrite (dict_get_None _ _ Hk).
Qed.

Lemma unknown_user_is_404_witness :
  let qs := [Main.PostUsers 100 (UserCreate.mk "alice" "alice@x.com")] in
  (Main.get_user 999
     (Main.serve qs (Main.mk "memory" (Memory InMemoryUserRepository.new),
                     empty_world)).2).1
    = Main.HTTPException 404 "User with ID 999 not found".
Proof.
  intros qs.
  rewrite (unknown_user_is_404 ∅ empty_world empty_world
             (Main.mk "memory" (Memory InMemoryUserRepository.new)) qs 999).
  - reflexivity.
  - reflexivity.
  - reflexivity.
  - apply (bool_decide_unpack _). vm_compute. reflexivity.
Defined.

(** ** Interleaved calls and the dict *)

Lemma length_omap_le {A B : Type} (f : A → option B) (l : list A) :
  (length (omap f l) ≤ length l)%nat.
Proof.
  induction l as [|a l IH]; [done|]. csimpl.
  destruct (f a); simpl; lia.
Qed.

(** X12. Interleaving loses no record: at every point of every schedule
    of [create_user] calls launched against a fresh in-memory instance,
    a user that a call has returned is the record the dict holds under
    that user's id, whatever the calls still under way have done, and
    that id is one of 1, ..., N for N calls launched. *)
Theorem returned_user_is_stored
    (args : list (datetime * string * string)) (sched : list nat) (u : User.t) :
  let s := Interleaved.run sched (Interleaved.launch args) in
  u ∈ Interleaved.results s →
  dict_get (User.id u) (Interleaved._users s) = Some u ∧
  1 ≤ User.id u ≤ Z.of_nat (length args).
Proof.
  intros s Hu.
  pose proof (InterleavedFacts.inv_run sched _ (InterleavedFacts.inv_launch args))
    as [Hkeys Hids Hstored _].
  fold s in Hkeys, Hids, Hstored.
  pose proof (InterleavedFacts.length_calls_run sched (Interleaved.launch args))
    as Hlen.
  fold s in Hlen. simpl in Hlen. rewrite length_map in Hlen.
  assert (u ∈ map snd (Interleaved._users s)) as Hin.
  { rewrite Hstored.
    exact (elem_of_sublist _ _ _ Hu
             (InterleavedFacts.returned_sublist (Interleaved.calls s))). }
  apply list_elem_of_fmap in Hin as ([k u'] & -> & Hin). simpl.
  pose proof (keys_are_ids _ Hids) as Hk. rewrite Forall_forall in Hk.
  pose proof (Hk _ Hin) as Hku. simpl in Hku. subst k.
  split.
  - apply dict_get_elem; [|done]. rewrite Hkeys. apply NoDup_seqZ.
  - assert (User.id u' ∈ map fst (Interleaved._users s)) as Hid.
    { apply list_elem_of_fmap. by exists (User.id u', u'). }
    rewrite Hkeys in Hid. apply elem_of_seqZ in Hid.
    assert (length (Interleaved._users s) ≤ length args)%nat; [|lia].
    rewrite <- Hlen, <- (length_map snd), Hstored. apply length_omap_le.
Qed.

(** Three calls under way: the first has returned, the second holds the
    lock and has stored its record, the third waits. *)
Lemma returned_user_is_stored_witness :
  let args := [(100, "alice", "a@x.com"); (200, "bob", "b@x.com");
               (300, "alice", "c@x.com")] in
  let sched := [0; 2; 1; 0; 0; 2; 0; 0; 0; 1; 1; 2; 1]%nat in
  let s := Interleaved.run sched (Interleaved.launch args) in
  dict_get 1 (Interleaved._users s) = Some (User.mk 1 "alice" "a@x.com" 100) ∧
  1 ≤ 1 ≤ 3.
Proof.
  intros args sched.
  apply (returned_user_is_stored args sched (User.mk 1 "alice" "a@x.com" 100)).
  apply (bool_decide_unpack _). vm_compute. reflexivity.
Defined.

(** ** script.py: dictionaries of strings *)

Lemma data_get_set_eq (key value : string) (d : list (string * string)) :
  data_get key (data_set key value d) = Some value.
Proof.
  induction d as [|[k v] d IH]; simpl.
  - by rewrite decide_True.
  - destruct (decide (k = key)) as [->|Hne]; simpl.
    + by rewrite decide_True.
    + by rewrite decide_False.
Qed.

Lemma data_get_set_ne (key other value : string) (d : list (string * string)) :
  other ≠ key → data_get other (data_set key value d) = data_get other d.
Proof.
  intros Hne. induction d as [|[k v] d IH]; simpl.
  - by rewrite decide_False.
  - destruct (decide (k = key)) as [->|Hk]; simpl.
    + by rewrite !decide_False.
    + by rewrite IH.
Qed.

Lemma data_has_get (key : string) (d : list (string * string)) :
  data_has key d = bool_decide (is_Some (data_get key d)).
Proof.
  unfold data_has. apply bool_decide_ext.
  induction d as [|[k v] d IH]; simpl.
  - split; [by intros ?%elem_of_nil | by intros [? ?]].
  - rewrite elem_of_cons. destruct (decide (k = key)) as [->|Hne].
    + split; [by eexists | by left].
    + rewrite <- IH. split; [by intros [?|?] | by right].
Qed.

Lemma data_get_del_eq (key : string) (d : list (string * string)) :
  data_get key (data_del key d) = None.
Proof.
  unfold data_del. induction d as [|[k v] d IH]; simpl; [done|].
  destruct (decide (k = key)) as [->|Hne].
  - by rewrite filter_cons_False by (by intros []).
  - rewrite filter_cons_True by done. simpl. by rewrite decide_False.
Qed.

Lemma data_get_del_ne (key other : string) (d : list (string * string)) :
  other ≠ key → data_get other (data_del key d) = data_get other d.
Proof.
  intros Hne. unfold data_del. induction d as [|[k v] d IH]; simpl; [done|].
  destruct (decide (k = key)) as [->|Hk].
  - rewrite filter_cons_False by (by intros []). by rewrite decide_False.
  - rewrite filter_cons_True by done. simpl. by rewrite IH.
Qed.

Lemma data_del_absent (key : string) (d : list (string * string)) :
  data_get key d = None → data_has key d = false.
Proof. intros Hget. rewrite data_has_get, Hget. by apply bool_decide_eq_false_2, is_Some_None. Qed.

(** X13. Both stores of [script.py] keep the laws of a dictionary, in
    every state: a saved value is read back and other keys are not
    disturbed; [delete] tells whether the key was present, removes it and
    nothing else, and changes nothing when the key is missing; [get] and
    [list_all] change nothing, and [get] reads what [list_all] shows. *)
Theorem stores_are_dictionaries :
  dictionary_laws InMemoryStore.t ∧ dictionary_laws (FileStore.t * Disk).
Proof.
  split.
  - intros [d] key value other. simpl.
    unfold InMemoryStore.delete. simpl. split_and!; try done.
    + apply data_get_set_eq.
    + apply data_get_set_ne.
    + rewrite data_has_get. by destruct (bool_decide _).
    + destruct (data_has key d) eqn:Hhas; simpl; [apply data_get_del_eq|].
      rewrite data_has_get in Hhas. apply bool_decide_eq_false in Hhas.
      destruct (data_get key d); [|done]. by destruct Hhas.
    + intros Hne. destruct (data_has key d); simpl; [|done].
      by apply data_get_del_ne.
    + intros Hget. by rewrite (data_del_absent _ _ Hget).
  - intros [[f d] disk] key value other. simpl.
    unfold FileStore.delete. simpl. split_and!; try done.
    + apply data_get_set_eq.
    + apply data_get_set_ne.
    + rewrite data_has_get. by destruct (bool_decide _).
    + destruct (data_has key d) eqn:Hhas; simpl; [apply data_get_del_eq|].
      rewrite data_has_get in Hhas. apply bool_decide_eq_false in Hhas.
      destruct (data_get key d); [|done]. by destruct Hhas.
    + intros Hne. destruct (data_has key d); simpl; [|done].
      by apply data_get_del_ne.
    + intros Hget. by rewrite (data_del_absent _ _ Hget).
Qed.

Lemma stores_are_dictionaries_witness :
  (DataStore.get "name"
     (DataStore.save "age" "30"
        (DataStore.save "name" "John Doe" InMemoryStore.new).2).2).1
    = Some "John Doe" ∧
  (DataStore.delete "age"
     (FileStore.new "data.json" ∅, (∅ : Disk))).2
    = (FileStore.new "data.json" ∅, ∅).
Proof.
  split.
  - destruct (proj1 stores_are_dictionaries
                (DataStore.save "name" "John Doe" InMemoryStore.new).2
                "age" "30" "name") as (_ & Hother & _).
    etrans; [apply Hother; discriminate | reflexivity].
  - destruct (proj2 stores_are_dictionaries
                (FileStore.new "data.json" ∅, ∅) "age" "" "")
      as (_ & _ & _ & _ & _ & Hmissing & _).
    apply Hmissing. reflexivity.
Defined.

(** ** script.py: the two stores *)

Lemma store_calls_cons {S : Type} `{!DataStore.t S}
    (o : store_op) (os : list store_op) (s : S) :
  store_calls (o :: os) s =
    ((store_call o s).1 :: (store_calls os (store_call o s).2).1,
     (store_calls os (store_call o s).2).2).
Proof.
  simpl. destruct (store_call o s) as [a s']. simpl.
  by destruct (store_calls os s').
Qed.

Lemma memory_store_call (o : store_op) (s : InMemoryStore.t) :
  store_call o s =
    (data_answer o (InMemoryStore._data s),
     InMemoryStore.mk (data_after o (InMemoryStore._data s))).
Proof.
  destruct s as [d]. destruct o as [key value | key | key |]; simpl; try done.
  unfold InMemoryStore.delete. simpl. by destruct (data_has key d).
Qed.

Lemma file_store_call (o : store_op) (σ : FileStore.t * Disk) :
  store_call o σ =
    (data_answer o (FileStore._data σ.1),
     (FileStore.mk (FileStore.filename σ.1)
        (data_after o (FileStore._data σ.1)),
      if data_written o (FileStore._data σ.1)
      then <[FileStore.filename σ.1 := data_after o (FileStore._data σ.1)]> σ.2
      else σ.2)).
Proof.
  destruct σ as [[f d] disk]. destruct o as [key value | key | key |]; simpl;
    try done.
  unfold FileStore.delete. simpl. by destruct (data_has key d).
Qed.

(** The file holds the data of the instance, or there is no file yet and
    no data. *)
Lemma file_store_synced (os : list store_op) (σ : FileStore.t * Disk) :
  FileStore.new (FileStore.filename σ.1) σ.2 = σ.1 →
  let σ' := (store_calls os σ).2 in
  FileStore.filename σ'.1 = FileStore.filename σ.1 ∧
  FileStore.new (FileStore.filename σ.1) σ'.2 = σ'.1.
Proof.
  revert σ. induction os as [|o os IH]; intros σ Hsync; [done|].
  rewrite store_calls_cons. cbn [fst snd]. rewrite file_store_call.
  set (σ1 := (_, _) : FileStore.t * Disk).
  destruct (IH σ1) as [IH1 IH2]; [|done].
  unfold σ1. cbn [fst snd FileStore.filename].
  unfold FileStore.new, FileStore._load in *. simpl in *.
  destruct (data_written o (FileStore._data σ.1)) eqn:Hw.
  - by rewrite lookup_insert_eq.
  - assert (data_after o (FileStore._data σ.1) = FileStore._data σ.1) as ->.
    { destruct o as [key value | key | key |]; simpl in *; try done.
      by rewrite Hw. }
    by destruct σ.1.
Qed.

(** X14. What a [FileStore] holds survives the instance: after any
    sequence of calls on a store opened on a file, a store opened anew on
    the same file starts with the same data, and so answers every [get]
    and [list_all] as the first one does. *)
Theorem file_store_reopens_with_same_data
    (filename : string) (disk : Disk) (os : list store_op) :
  let σ := (store_calls os (FileStore.new filename disk, disk)).2 in
  FileStore.new filename σ.2 = σ.1 ∧
  (∀ key, (DataStore.get key (FileStore.new filename σ.2, σ.2)).1
          = (DataStore.get key σ).1) ∧
  (DataStore.list_all (FileStore.new filename σ.2, σ.2)).1
    = (DataStore.list_all σ).1.
Proof.
  intros σ.
  assert (FileStore.filename (FileStore.new filename disk) = filename) as Hname.
  { unfold FileStore.new, FileStore._load. simpl. by destruct (disk !! filename). }
  destruct (file_store_synced os (FileStore.new filename disk, disk)) as [_ Hs].
  { simpl. rewrite Hname. unfold FileStore.new, FileStore._load. simpl.
    by destruct (disk !! filename). }
  simpl in Hs. rewrite Hname in Hs. fold σ in Hs.
  split_and!; [done | |]; simpl; by rewrite Hs.
Qed.

Lemma stores_answer_alike (os : list store_op) (σ : FileStore.t * Disk)
    (s : InMemoryStore.t) :
  FileStore._data σ.1 = InMemoryStore._data s →
  (store_calls os σ).1 = (store_calls os s).1.
Proof.
  revert σ s. induction os as [|o os IH]; intros σ s Hdata; [done|].
  rewrite !store_calls_cons. cbn [fst snd].
  rewrite file_store_call, memory_store_call. cbn [fst snd].
  rewrite Hdata. f_equal. by apply IH.
Qed.

(** X15. Behind the interface the two stores cannot be told apart: a
    [FileStore] opened on a file that does not exist answers every
    sequence of calls exactly as a fresh [InMemoryStore] does, and one
    opened on an existing file answers as an [InMemoryStore] that holds
    the content of the file. *)
Theorem file_store_answers_like_memory_store
    (filename : string) (disk : Disk) (os : list store_op) :
  (store_calls os (FileStore.new filename disk, disk)).1 =
    (store_calls os (InMemoryStore.mk (default [] (disk !! filename)))).1 ∧
  (disk !! filename = None →
   (store_calls os (FileStore.new filename disk, disk)).1 =
     (store_calls os InMemoryStore.new).1).
Proof.
  assert (FileStore._data (FileStore.new filename disk)
          = default [] (disk !! filename)) as Hdata.
  { unfold FileStore.new, FileStore._load. simpl. by destruct (disk !! filename). }
  split.
  - by apply stores_answer_alike.
  - intros Hnone. apply stores_answer_alike. simpl. by rewrite Hdata, Hnone.
Qed.

Lemma file_store_answers_like_memory_store_witness :
  (store_calls [Save "name" "John Doe"; Save "age" "30"; Get "name";
                Delete "age"; Delete "age"; ListAll]
     (FileStore.new "data.json" ∅, (∅ : Disk))).1 =
  (store_calls [Save "name" "John Doe"; Save "age" "30"; Get "name";
                Delete "age"; Delete "age"; ListAll]
     InMemoryStore.new).1.
Proof.
  apply (proj2 (file_store_answers_like_memory_store "data.json" ∅ _)).
  reflexivity.
Defined.

Lemma file_store_frame (os : list store_op) (σ : FileStore.t * Disk) :
  let σ' := (store_calls os σ).2 in
  FileStore.filename σ'.1 = FileStore.filename σ.1 ∧
  (∀ other, other ≠ FileStore.filename σ.1 → σ'.2 !! other = σ.2 !! other) ∧
  (forallb is_read os = true → σ' = σ).
Proof.
  revert σ. induction os as [|o os IH]; intros σ; [done|].
  rewrite store_calls_cons. cbn [fst snd]. rewrite file_store_call.
  set (σ1 := (_, _) : FileStore.t * Disk).
  destruct (IH σ1) as (IH1 & IH2 & IH3). unfold σ1 in *.
  cbn [fst snd FileStore.filename] in *. split_and!.
  - done.
  - intros other Hother. rewrite IH2 by done.
    destruct (data_written o _); [by rewrite lookup_insert_ne | done].
  - simpl. intros [Ho Hos]%andb_prop. rewrite IH3 by done.
    destruct o; try done; by destruct σ as [[f d] disk].
Qed.

(** X16. A [FileStore] writes no file but its own, and only [save] and a
    [delete] that finds its key write at all: after any sequence of calls
    every other file is as it was, and after calls that are all [get] or
    [list_all] the whole disk and the instance are as they were. *)
Theorem file_store_touches_only_its_file
    (filename : string) (disk : Disk) (os : list store_op) :
  let σ := (store_calls os (FileStore.new filename disk, disk)).2 in
  (∀ other, other ≠ filename → σ.2 !! other = disk !! other) ∧
  (forallb is_read os = true → σ = (FileStore.new filename disk, disk)).
Proof.
  intros σ.
  assert (FileStore.filename (FileStore.new filename disk) = filename) as Hname.
  { unfold FileStore.new, FileStore._load. simpl. by destruct (disk !! filename). }
  destruct (file_store_frame os (FileStore.new filename disk, disk))
    as (_ & Hother & Hread).
  simpl in Hother. rewrite Hname in Hother. by split.
Qed.

Lemma file_store_touches_only_its_file_witness :
  (store_calls [Save "name" "John Doe"; Delete "name"]
     (FileStore.new "data.json" {["notes.json" := [("k", "v")]]},
      ({["notes.json" := [("k", "v")]]} : Disk))).2.2 !! "notes.json"
    = Some [("k", "v")].
Proof.
  etrans.
  - apply (proj1 (file_store_touches_only_its_file "data.json"
                    {["notes.json" := [("k", "v")]]}
                    [Save "name" "John Doe"; Delete "name"])).
    discriminate.
  - reflexivity.
Defined.

Lemma contains_refl (s : string) : contains s s = true.
Proof.
  assert (starts_with s s = true) as Hs.
  { induction s as [|c s IH]; simpl; [done|]. by rewrite Ascii.eqb_refl. }
  destruct s; simpl in *; by rewrite ?Hs.
Qed.

(** X17. [create_data_store] compares the selector as it is written:
    every string other than [memory] and [file] raises a [ValueError]
    whose message ends in the selector unchanged. So [memory] in another
    letter case is refused here, while [create_user_repository] accepts
    it. *)
Theorem create_data_store_is_case_sensitive
    (store_type : string) (disk : Disk) (w : World) :
  (store_type ≠ "memory" → store_type ≠ "file" →
   create_data_store store_type disk =
     Raise (ValueError ("Unknown store type: " +:+ store_type)) ∧
   contains store_type ("Unknown store type: " +:+ store_type) = true) ∧
  (any_case "memory" store_type = true → store_type ≠ "memory" →
   create_data_store store_type disk =
     Raise (ValueError ("Unknown store type: " +:+ store_type)) ∧
   (create_user_repository (Some store_type) w).1 =
     Ok (Memory InMemoryUserRepository.new)).
Proof.
  split.
  - intros Hm Hf. unfold create_data_store. rewrite !decide_False by done.
    split; [done|]. apply contains_app_r, contains_refl.
  - intros Hcase Hm.
    assert (store_type ≠ "file") as Hf.
    { intros ->. by vm_compute in Hcase. }
    unfold create_data_store. rewrite !decide_False by done. split; [done|].
    rewrite create_user_repository_unfold.
    by rewrite decide_True by (by apply (lower_any_case "memory")).
Qed.

Lemma create_data_store_is_case_sensitive_witness :
  create_data_store "Memory" ∅ =
    Raise (ValueError ("Unknown store type: " +:+ "Memory")) ∧
  (create_user_repository (Some "Memory") empty_world).1 =
    Ok (Memory InMemoryUserRepository.new).
Proof.
  apply (proj2 (create_data_store_is_case_sensitive "Memory" ∅ empty_world)).
  - reflexivity.
  - discriminate.
Defined.
